(** * The n-dimensional Sobel operator of the 3-D image processing lecture

    The lecture notebook [lectures/three_dimensional_image_processing.ipynb]
    defines two Python functions, [kernel_shape] and [sobel], on top of
    numpy and [scipy.ndimage].  This development embeds both functions and
    the library operations they call, and proves the properties the
    specification states about them.

    - An array is its shape and its samples in row-major order; the numpy
      and scipy operations ([reshape], broadcasting, [np.zeros], [+=],
      [**], [np.sqrt], [/], [ndimage.convolve] with [mode='reflect']) are
      functions on such arrays, raising where the libraries raise.
    - The arithmetic of [sobel] is embedded twice.  In [sobel] a sample is a
      real number ([R]) and every operation is exact; the values that only
      IEEE arithmetic has (infinities, not-a-number) appear where numpy can
      produce them from real inputs, in [np_sqrt] and [np_divide].  This is
      the reading in which the algebraic statements about the filter
      (agreement with the reference definition, symmetry under flips,
      cancellation on constant images, homogeneity) hold, and each of them
      says that it is a statement of exact real arithmetic; what it proves
      about shapes, indices and objects does not depend on the arithmetic.  In [sobel_f64] the image is a float64 array and every
      operation is rounded to binary64 as numpy and scipy round it, the
      products of a convolution being added in the order scipy adds them.
      This reading is evaluated on concrete images; it shows where the
      float64 run leaves the exact one (overflow, underflow, rounding
      residues, order of summation) and it carries the statement about the
      sign of the results.  Images of other dtypes (integers, float16,
      float32) are not embedded.
    - [sobel] is embedded once more over a store of array objects, to say
      which objects a call allocates and writes.
    - Two further pieces of notebook code are embedded: the loop that sorts
      the region properties into supported and unsupported ones, with the
      text printed for them, and the grid of axes an image collection is
      drawn on. *)

From Stdlib Require Import Reals Lra Lia ZArith List.
From Stdlib Require String Ascii SpecFloat.
From stdpp Require Import base tactics option list.

Local Open Scope nat_scope.

(** ** Python exceptions and the error monad *)

Inductive exn : Set := IndexError | ValueError | RuntimeError.

Inductive result (A : Type) : Type :=
| Ok (a : A)
| Raise (e : exn).
Arguments Ok {A} a.
Arguments Raise {A} e.

#[global] Instance result_ret : MRet result := @Ok.
#[global] Instance result_bind : MBind result := fun A B k m =>
  match m with
  | Ok a => k a
  | Raise e => Raise e
  end.

(** A Python [for x in xs: state = body(state, x)] loop whose body may
    raise. *)
Fixpoint for_loop {S : Type} (xs : list nat) (body : S → nat → result S)
    (s : S) : result S :=
  match xs with
  | [] => Ok s
  | x :: xs' => s' ← body s x; for_loop xs' body s'
  end.

(** [range(n)] *)
Definition range (n : nat) : list nat := seq 0 n.

(** ** numpy arrays: a shape and the samples in row-major (C) order *)

Record ndarray (A : Type) : Type := mkarr { shape : list nat; data : list A }.
Arguments mkarr {A} shape data.
Arguments shape {A} _.
Arguments data {A} _.

Definition ndim {A} (a : ndarray A) : nat := length (shape a).

(** Number of samples of an array of shape [s]. *)
Definition size (s : list nat) : nat := foldr Nat.mul 1 s.

Definition wf {A} (a : ndarray A) : Prop := length (data a) = size (shape a).

(** Row-major offset of the multi-index [idx] in an array of shape [s]. *)
Fixpoint ravel (s idx : list nat) : nat :=
  match s, idx with
  | _ :: s', i :: idx' => i * size s' + ravel s' idx'
  | _, _ => 0
  end.

(** All multi-indices of shape [s], in row-major order ([np.ndindex]). *)
Fixpoint indices (s : list nat) : list (list nat) :=
  match s with
  | [] => [[]]
  | n :: s' => flat_map (fun i => map (cons i) (indices s')) (seq 0 n)
  end.

Definition in_bounds (s idx : list nat) : Prop :=
  Forall2 (fun n i => i < n) s idx.

(** [a[idx]], with [d] standing for a read outside the buffer. *)
Definition get {A} (d : A) (a : ndarray A) (idx : list nat) : A :=
  nth (ravel (shape a) idx) (data a) d.

(** The array of shape [s] whose sample at [idx] is [f idx]. *)
Definition tabulate {A} (s : list nat) (f : list nat → A) : ndarray A :=
  mkarr s (map f (indices s)).

Definition amap {A B} (f : A → B) (a : ndarray A) : ndarray B :=
  mkarr (shape a) (map f (data a)).

(** [np.zeros(s, dtype=float)], as real samples *)
Definition np_zeros (s : list nat) : ndarray R :=
  mkarr s (replicate (size s) 0%R).

(** [a.reshape(s)]: same buffer, new shape; the sizes must agree. *)
Definition reshape {A} (a : ndarray A) (s : list nat) : result (ndarray A) :=
  if size s =? size (shape a) then Ok (mkarr s (data a)) else Raise ValueError.

(** *** Broadcasting *)

(** Shapes of equal length, axis by axis: equal lengths, or one of them 1. *)
Fixpoint broadcast_dims (s1 s2 : list nat) : result (list nat) :=
  match s1, s2 with
  | [], [] => Ok []
  | n1 :: r1, n2 :: r2 =>
      r ← broadcast_dims r1 r2;
      if n1 =? n2 then Ok (n1 :: r)
      else if n1 =? 1 then Ok (n2 :: r)
      else if n2 =? 1 then Ok (n1 :: r)
      else Raise ValueError
  | _, _ => Raise ValueError
  end.

(** The shorter shape is extended with leading axes of length 1. *)
Definition pad_shape (n : nat) (s : list nat) : list nat :=
  replicate (n - length s) 1 ++ s.

Definition broadcast_shapes (s1 s2 : list nat) : result (list nat) :=
  let n := Nat.max (length s1) (length s2) in
  broadcast_dims (pad_shape n s1) (pad_shape n s2).

(** The index at which an operand of shape [s] is read for the result index
    [idx]: leading axes the operand lacks are dropped, and an axis of
    length 1 is read at 0. *)
Definition broadcast_index (s idx : list nat) : list nat :=
  zip_with (fun n i => if n =? 1 then 0 else i) s
           (drop (length idx - length s) idx).

Definition broadcast_op {A B C} (da : A) (db : B) (f : A → B → C)
    (a : ndarray A) (b : ndarray B) : result (ndarray C) :=
  s ← broadcast_shapes (shape a) (shape b);
  Ok (tabulate s (fun idx => f (get da a (broadcast_index (shape a) idx))
                               (get db b (broadcast_index (shape b) idx)))).

(** [a * b] on integer arrays *)
Definition np_multiply (a b : ndarray Z) : result (ndarray Z) :=
  broadcast_op 0%Z 0%Z Z.mul a b.

(** [a += b], on real samples: [b] is broadcast to the shape of [a], which
    stays. *)
Definition np_iadd (a b : ndarray R) : result (ndarray R) :=
  r ← broadcast_op 0%R 0%R Rplus a b;
  if decide (shape r = shape a) then Ok r else Raise ValueError.

(** [a ** 2], on real samples *)
Definition np_square (a : ndarray R) : ndarray R := amap (fun x => (x * x)%R) a.

(** ** Float results: reals, infinities and not-a-number *)

Inductive xreal : Type :=
| Fin (r : R)
| PInf
| NInf
| NaN.

(** [np.sqrt] on a real sample: not-a-number below zero. *)
Definition np_sqrt (x : R) : xreal :=
  if Rlt_dec x 0 then NaN else Fin (sqrt x).

(** [x / y] in numpy: division by zero raises nothing, it gives an infinity
    or, for [0 / 0], not-a-number. *)
Definition np_divide (x y : xreal) : xreal :=
  match x, y with
  | NaN, _ | _, NaN => NaN
  | Fin a, Fin b =>
      if Req_dec_T b 0 then
        (if Req_dec_T a 0 then NaN else if Rlt_dec 0 a then PInf else NInf)
      else Fin (a / b)
  | Fin _, (PInf | NInf) => Fin 0
  | (PInf | NInf), (PInf | NInf) => NaN
  | PInf, Fin b => if Rlt_dec b 0 then NInf else PInf
  | NInf, Fin b => if Rlt_dec b 0 then PInf else NInf
  end.

(** ** [scipy.ndimage.convolve(input, weights, mode='reflect')]

    Here on real samples, the sum of the products being exact; the float64
    run, with its order of summation, is [convolve_f64] below. *)

(** Mode [reflect] extends a line of [len] samples by mirroring about the
    edge of the last sample: [(d c b a | a b c d | d c b a)]. *)
Definition extend_reflect (len : nat) (c : Z) : nat :=
  let p := (c mod (2 * Z.of_nat len))%Z in
  Z.to_nat (if (p <? Z.of_nat len)%Z then p else 2 * Z.of_nat len - 1 - p)%Z.

(** The input index read for the output index [idx] and the weight index
    [k]: along an axis with [m] weights, [idx + m / 2 - k], reflected. *)
Fixpoint neighbour (s ws idx k : list nat) : list nat :=
  match s, ws, idx, k with
  | n :: s', m :: ws', i :: idx', j :: k' =>
      extend_reflect n (Z.of_nat i + Z.of_nat (m / 2) - Z.of_nat j)
        :: neighbour s' ws' idx' k'
  | _, _, _, _ => []
  end.

Definition Rsum (l : list R) : R := foldr Rplus 0%R l.

Definition convolve (input : ndarray R) (weights : ndarray Z)
    : result (ndarray R) :=
  if length (filter (fun m => 0 < m) (shape weights)) =? ndim input then
    Ok (tabulate (shape input) (fun idx =>
          Rsum (map (fun k =>
                  (IZR (get 0%Z weights k)
                   * get 0%R input
                       (neighbour (shape input) (shape weights) idx k))%R)
                (indices (shape weights)))))
  else Raise RuntimeError.

(** ** The notebook's functions *)

(** [[
def kernel_shape(ndim, dim):
    shape = [1,] * ndim
    shape[dim] = 3
    return shape
]] *)
Definition kernel_shape (ndim dim : nat) : result (list nat) :=
  let shape := replicate ndim 1 in
  if dim <? length shape then Ok (<[dim := 3]> shape) else Raise IndexError.

(** [[
def sobel(image):
    ndim = image.ndim
    edge = np.array([1, 0, -1])
    smooth = np.array([1, 2, 1])
    output = np.zeros(image.shape, dtype=float)
    for edge_dim in range(ndim):
        kernel = edge.reshape(kernel_shape(ndim, edge_dim))
        for smooth_dim in range(ndim):
            if smooth_dim == edge_dim:
                continue
            kernel = kernel * smooth.reshape(kernel_shape(ndim, smooth_dim))
        output += ndi.convolve(image, kernel, mode='reflect')**2
    output = np.sqrt(output) / np.sqrt(ndim)
    return output
]] *)
Definition edge : ndarray Z := mkarr [3] [1; 0; -1]%Z.
Definition smooth : ndarray Z := mkarr [3] [1; 2; 1]%Z.

(** The first statement of the outer loop's body and the inner loop: the
    kernel for the edge axis [edge_dim]. *)
Definition sobel_kernel (ndim edge_dim : nat) : result (ndarray Z) :=
  ks ← kernel_shape ndim edge_dim;
  kernel ← reshape edge ks;
  for_loop (range ndim)
    (fun kernel smooth_dim =>
       if smooth_dim =? edge_dim then Ok kernel
       else
         ss ← kernel_shape ndim smooth_dim;
         sm ← reshape smooth ss;
         np_multiply kernel sm)
    kernel.

Definition sobel (image : ndarray R) : result (ndarray xreal) :=
  let ndim := ndim image in
  let output := np_zeros (shape image) in
  output ←
    for_loop (range ndim)
      (fun output edge_dim =>
         kernel ← sobel_kernel ndim edge_dim;
         conv ← convolve image kernel;
         np_iadd output (np_square conv))
      output;
  Ok (amap (fun x => np_divide (np_sqrt x) (np_sqrt (INR ndim))) output).

(** ** The same statements on a float64 image

    [sobel] above computes with real numbers.  On a float64 image numpy and
    scipy round every operation to binary64 (IEEE 754, round to nearest,
    ties to even), and overflow gives an infinity.  [SpecFloat] of the
    standard library is that arithmetic: a float64 value is a [spec_float]
    and the operations are taken at precision 53 and maximal exponent
    1024. *)

Abbreviation float64 := SpecFloat.spec_float.

Definition f64_add : float64 → float64 → float64 := SpecFloat.SFadd 53 1024.
Definition f64_mul : float64 → float64 → float64 := SpecFloat.SFmul 53 1024.
Definition f64_div : float64 → float64 → float64 := SpecFloat.SFdiv 53 1024.
Definition f64_sqrt : float64 → float64 := SpecFloat.SFsqrt 53 1024.
Definition f64_zero : float64 := SpecFloat.S754_zero false.

(** The float64 nearest to an integer: the conversion of the integer
    kernel and of [ndim]. *)
Definition f64_of_Z (z : Z) : float64 :=
  SpecFloat.binary_normalize 53 1024 z 0 false.

(** [np.zeros(s, dtype=float)] *)
Definition np_zeros_f64 (s : list nat) : ndarray float64 :=
  mkarr s (replicate (size s) f64_zero).

(** [a += b] *)
Definition np_iadd_f64 (a b : ndarray float64) : result (ndarray float64) :=
  r ← broadcast_op f64_zero f64_zero f64_add a b;
  if decide (shape r = shape a) then Ok r else Raise ValueError.

(** [a ** 2]: numpy squares by one multiplication. *)
Definition np_square_f64 (a : ndarray float64) : ndarray float64 :=
  amap (fun x => f64_mul x x) a.

(** scipy correlates with the reversed kernel and visits its non-zero
    weights in row-major order: in terms of the kernel it was given, the
    offsets with a non-zero weight, last offset first. *)
Definition footprint (weights : ndarray Z) : list (list nat) :=
  filter (fun k => get 0%Z weights k ≠ 0%Z) (rev (indices (shape weights))).

(** [ndi.convolve(input, weights, mode='reflect')] on a float64 image: for
    each output sample a double accumulator starts at [0.0] and the
    products [weight * sample] are added to it one after the other. *)
Definition convolve_f64 (input : ndarray float64) (weights : ndarray Z)
    : result (ndarray float64) :=
  if length (filter (fun m => 0 < m) (shape weights)) =? ndim input then
    Ok (tabulate (shape input) (fun idx =>
          foldl (fun tmp k =>
                   f64_add tmp
                     (f64_mul (f64_of_Z (get 0%Z weights k))
                        (get f64_zero input
                           (neighbour (shape input) (shape weights) idx k))))
                f64_zero (footprint weights)))
  else Raise RuntimeError.

(** [sobel], statement by statement, on a float64 image; [np.sqrt(ndim)] is
    the float64 root of the integer [ndim], and neither [np.sqrt] nor the
    division raises: they give not-a-number or an infinity. *)
Definition sobel_f64 (image : ndarray float64) : result (ndarray float64) :=
  let ndim := ndim image in
  let output := np_zeros_f64 (shape image) in
  output ←
    for_loop (range ndim)
      (fun output edge_dim =>
         kernel ← sobel_kernel ndim edge_dim;
         conv ← convolve_f64 image kernel;
         np_iadd_f64 output (np_square_f64 conv))
      output;
  Ok (amap (fun x => f64_div (f64_sqrt x)
                       (f64_sqrt (f64_of_Z (Z.of_nat ndim)))) output).

(** ** The same statements over an object store

    The value-level [sobel] above says what is computed.  To say which
    objects a call touches, the statements of the notebook are run once more
    over a store of array objects: every numpy call that returns an array
    allocates a new object, [output += ...] writes into the object [output]
    names, and nothing else writes. *)

Inductive obj : Type :=
| IntArr (a : ndarray Z)
| RealArr (a : ndarray R)
| FloatArr (a : ndarray xreal).

(** Objects are identified by their position in the store. *)
Abbreviation heap := (list obj).

Definition ST (A : Type) : Type := heap → result (A * heap).

#[global] Instance st_ret : MRet ST := fun A a h => Ok (a, h).
#[global] Instance st_bind : MBind ST := fun A B k m h =>
  match m h with
  | Ok (a, h') => k a h'
  | Raise e => Raise e
  end.

Definition lift {A} (r : result A) : ST A := fun h =>
  match r with
  | Ok a => Ok (a, h)
  | Raise e => Raise e
  end.

Definition alloc (o : obj) : ST nat := fun h => Ok (length h, h ++ [o]).

Definition write (l : nat) (o : obj) : ST unit := fun h => Ok (tt, <[l := o]> h).

Definition read_int (l : nat) : ST (ndarray Z) := fun h =>
  match h !! l with
  | Some (IntArr a) => Ok (a, h)
  | _ => Raise RuntimeError
  end.

Definition read_real (l : nat) : ST (ndarray R) := fun h =>
  match h !! l with
  | Some (RealArr a) => Ok (a, h)
  | _ => Raise RuntimeError
  end.

Definition read_float (l : nat) : ST (ndarray xreal) := fun h =>
  match h !! l with
  | Some (FloatArr a) => Ok (a, h)
  | _ => Raise RuntimeError
  end.

Fixpoint st_for {S : Type} (xs : list nat) (body : S → nat → ST S) (s : S)
    : ST S :=
  match xs with
  | [] => mret s
  | x :: xs' => s' ← body s x; st_for xs' body s'
  end.

(** [a.reshape(s)] returns a new array object (a view of [a]; it is never
    written to here). *)
Definition reshape_st (l : nat) (s : list nat) : ST nat :=
  a ← read_int l; r ← lift (reshape a s); alloc (IntArr r).

Definition multiply_st (l1 l2 : nat) : ST nat :=
  a ← read_int l1; b ← read_int l2; r ← lift (np_multiply a b);
  alloc (IntArr r).

Definition convolve_st (image kernel : nat) : ST nat :=
  a ← read_real image; k ← read_int kernel; r ← lift (convolve a k);
  alloc (RealArr r).

Definition square_st (l : nat) : ST nat :=
  a ← read_real l; alloc (RealArr (np_square a)).

(** [a += b] writes the sum into the object of [a]. *)
Definition iadd_st (l1 l2 : nat) : ST unit :=
  a ← read_real l1; b ← read_real l2; r ← lift (np_iadd a b);
  write l1 (RealArr r).

Definition sqrt_st (l : nat) : ST nat :=
  a ← read_real l; alloc (FloatArr (amap np_sqrt a)).

Definition divide_st (l : nat) (y : xreal) : ST nat :=
  a ← read_float l; alloc (FloatArr (amap (fun x => np_divide x y) a)).

Definition sobel_kernel_st (edge_l smooth_l : nat) (ndim edge_dim : nat)
    : ST nat :=
  ks ← lift (kernel_shape ndim edge_dim);
  kernel ← reshape_st edge_l ks;
  st_for (range ndim)
    (fun kernel smooth_dim =>
       if smooth_dim =? edge_dim then mret kernel
       else
         ss ← lift (kernel_shape ndim smooth_dim);
         sm ← reshape_st smooth_l ss;
         multiply_st kernel sm)
    kernel.

Definition sobel_st (image : nat) : ST nat :=
  img ← read_real image;
  let ndim := ndim img in
  edge_l ← alloc (IntArr edge);
  smooth_l ← alloc (IntArr smooth);
  output ← alloc (RealArr (np_zeros (shape img)));
  _ ← st_for (range ndim)
        (fun _ edge_dim =>
           kernel ← sobel_kernel_st edge_l smooth_l ndim edge_dim;
           conv ← convolve_st image kernel;
           sq ← square_st conv;
           iadd_st output sq)
        tt;
  root ← sqrt_st output;
  divide_st root (np_sqrt (INR ndim)).

(** ** The reference definition of the specification

    Written from the specification's words, in closed form and in plain real
    arithmetic: the kernel for the edge axis [d] weighs the offset [k] by the
    product over the axes of [[1, 0, -1]] on axis [d] and [[1, 2, 1]] on the
    others; the convolution reads the image at [idx + 1 - k], mirrored about
    the array edge; the squares are summed over the axes, and the root of
    the sum is divided by the root of the number of axes. *)

Definition edge_w (j : nat) : Z := nth j [1; 0; -1]%Z 0%Z.
Definition smooth_w (j : nat) : Z := nth j [1; 2; 1]%Z 0%Z.
Definition Zprod (l : list Z) : Z := foldr Z.mul 1%Z l.

Definition kernel_weight (n d : nat) (k : list nat) : Z :=
  Zprod (map (fun s => if s =? d then edge_w (nth s k 0)
                       else smooth_w (nth s k 0)) (seq 0 n)).

(** One step beyond the edge is mirrored back onto the edge sample. *)
Definition mirror_coord (n : nat) (c : Z) : nat :=
  Z.to_nat (if (c <? 0)%Z then - c - 1
            else if (c <? Z.of_nat n)%Z then c
            else 2 * Z.of_nat n - 1 - c)%Z.

Fixpoint mirror (s idx k : list nat) : list nat :=
  match s, idx, k with
  | n :: s', i :: idx', j :: k' =>
      mirror_coord n (Z.of_nat i + 1 - Z.of_nat j) :: mirror s' idx' k'
  | _, _, _ => []
  end.

Definition ref_convolve (image : ndarray R) (d : nat) (idx : list nat) : R :=
  Rsum (map (fun k => (IZR (kernel_weight (ndim image) d k)
                       * get 0 image (mirror (shape image) idx k))%R)
            (indices (replicate (ndim image) 3))).

Definition ref_sobel (image : ndarray R) : ndarray xreal :=
  tabulate (shape image) (fun idx =>
    Fin (sqrt (Rsum (map (fun d => (ref_convolve image d idx) ^ 2)%R
                         (seq 0 (ndim image))))
         / sqrt (INR (ndim image)))).


(** ** Vocabulary of the stated properties *)

(** The index [idx] with its coordinate on [axis] reversed. *)
Fixpoint flip_index (s : list nat) (axis : nat) (idx : list nat) : list nat :=
  match s, idx with
  | n :: s', i :: idx' =>
      match axis with
      | 0 => (n - 1 - i) :: idx'
      | S axis' => i :: flip_index s' axis' idx'
      end
  | _, _ => idx
  end.

(** [np.flip(a, axis)], for an axis of [a] *)
Definition np_flip {A} (d : A) (axis : nat) (a : ndarray A) : ndarray A :=
  tabulate (shape a) (fun idx => get d a (flip_index (shape a) axis idx)).

(** [c * image] *)
Definition np_scale (c : R) (image : ndarray R) : ndarray R :=
  amap (Rmult c) image.

(** Multiplication of float results. *)
Definition x_mul (x y : xreal) : xreal :=
  match x, y with
  | NaN, _ | _, NaN => NaN
  | Fin a, Fin b => Fin (a * b)
  | Fin a, PInf | PInf, Fin a =>
      if Req_dec_T a 0 then NaN else if Rlt_dec a 0 then NInf else PInf
  | Fin a, NInf | NInf, Fin a =>
      if Req_dec_T a 0 then NaN else if Rlt_dec a 0 then PInf else NInf
  | PInf, PInf | NInf, NInf => PInf
  | PInf, NInf | NInf, PInf => NInf
  end.

(** A float result that is a real number and not below zero. *)
Definition nonneg_real (x : xreal) : Prop :=
  match x with Fin r => (0 <= r)%R | _ => False end.

(** Every sample of [image] is [c]. *)
Definition constant (c : R) (image : ndarray R) : Prop :=
  wf image ∧ Forall (fun x => x = c) (data image).

(** *** float64 values *)

(** [2 ^ e] as a normal float64, for [-1022 <= e <= 1023]. *)
Definition f64_pow2 (e : Z) : float64 :=
  SpecFloat.S754_finite false 4503599627370496 (e - 52).

(** The float64 nearest to one tenth, [0x1.999999999999ap-4]. *)
Definition f64_tenth : float64 :=
  SpecFloat.S754_finite false 7205759403792794 (-56).


(** The real number a finite float64 stands for. *)
Definition f64_real (x : float64) : R :=
  match x with
  | SpecFloat.S754_finite s m e =>
      ((if s then - IZR (Z.pos m) else IZR (Z.pos m)) * powerRZ 2 e)%R
  | _ => 0%R
  end.

(** A float64 as a float result of the real-number reading. *)
Definition f64_xreal (x : float64) : xreal :=
  match x with
  | SpecFloat.S754_nan => NaN
  | SpecFloat.S754_infinity s => if s then NInf else PInf
  | _ => Fin (f64_real x)
  end.

(** [0.0 <= x] in float64: [x] is a zero, a positive number or [+inf]. *)
Definition f64_nonneg (x : float64) : Prop :=
  SpecFloat.SFleb f64_zero x = true.

(** ** Auxiliary definitions of the proofs *)

(** Length of a broadcast axis. *)
Definition bdim (n1 n2 : nat) : nat := if n1 =? 1 then n2 else n1.

(** The kernel of the inner loop once the smoothing axes below [j] have been
    multiplied in: its shape and its weights. *)
Definition stage_dim (d j s : nat) : nat :=
  if (s =? d) || (s <? j) then 3 else 1.
Definition stage_shape (n d j : nat) : list nat :=
  map (stage_dim d j) (seq 0 n).
Definition stage_factor (d j s i : nat) : Z :=
  if s =? d then edge_w i else if s <? j then smooth_w i else 1%Z.
Definition stage_weight (n d j : nat) (k : list nat) : Z :=
  Zprod (map (fun s => stage_factor d j s (nth s k 0)) (seq 0 n)).

(** Sign a kernel weight takes when the offset is reversed on axis [a]. *)
Definition flip_sign (a d : nat) : Z := if a =? d then (-1)%Z else 1%Z.

(** No negative sign bit ([f64_positive_sign]); nothing below zero, a
    negative zero allowed ([f64_no_negative]). *)
Definition f64_positive_sign (x : float64) : Prop :=
  match x with
  | SpecFloat.S754_zero s | SpecFloat.S754_infinity s
  | SpecFloat.S754_finite s _ _ => s = false
  | SpecFloat.S754_nan => True
  end.
Definition f64_no_negative (x : float64) : Prop :=
  match x with
  | SpecFloat.S754_infinity s | SpecFloat.S754_finite s _ _ => s = false
  | _ => True
  end.

(** ** Further vocabulary *)

(** [kernel.sum()] on an integer array *)
Definition Zsum (l : list Z) : Z := foldr Z.add 0%Z l.

(** [image + c], on real samples *)
Definition np_add_scalar (c : R) (image : ndarray R) : ndarray R :=
  amap (fun x => (x + c)%R) image.

(** [a + b], on real samples *)
Definition np_add (a b : ndarray R) : result (ndarray R) :=
  broadcast_op 0%R 0%R Rplus a b.

(** The samples of [image] do not depend on the coordinate along axis [d]. *)
Definition invariant_along (d : nat) (image : ndarray R) : Prop :=
  ∀ idx idx',
    in_bounds (shape image) idx → in_bounds (shape image) idx' →
    (∀ a, a ≠ d → nth a idx 0 = nth a idx' 0) →
    get 0%R image idx = get 0%R image idx'.

(** [idx'] is [idx] or one of its neighbours: no coordinate differs by more
    than one. *)
Definition adjacent (idx idx' : list nat) : Prop :=
  ∀ a, nth a idx' 0 ≤ nth a idx 0 + 1 ∧ nth a idx 0 ≤ nth a idx' 0 + 1.

(** Every sample of [image] lies between [lo] and [hi]. *)
Definition within (lo hi : R) (image : ndarray R) : Prop :=
  wf image ∧ Forall (fun x => (lo <= x <= hi)%R) (data image).

(** Sum of a per-axis factor over the three offsets of an axis. *)
Definition sum3 (f : nat → Z) : Z := (f 0%nat + f 1%nat + f 2%nat)%Z.

(** ** The loop that sorts the region properties

    [[
regionprops = measure.regionprops(relabeled, intensity_image=data)

supported = []
unsupported = []

for prop in regionprops[0]:
    try:
        regionprops[0][prop]
        supported.append(prop)
    except NotImplementedError:
        unsupported.append(prop)
    ]]

    What scikit-image's region object answers is no code of the notebook:
    a region is taken as the list of property names its iteration yields
    and the outcome of [region[prop]] for each name. *)

(** Outcome of [regionprops[0][prop]]: a value, [NotImplementedError], or
    another exception. *)
Inductive access (other : Type) : Type :=
| Measured
| NotImplemented
| OtherError (e : other).
Arguments Measured {other}.
Arguments NotImplemented {other}.
Arguments OtherError {other} e.

(** What the cell can raise: the [IndexError] of [regionprops[0]] on an
    empty list, or an exception of [region[prop]] that the [except] clause
    does not catch. *)
Inductive cell_exn (other : Type) : Type :=
| NoRegion
| Uncaught (e : other).
Arguments NoRegion {other}.
Arguments Uncaught {other} e.

Definition region (prop other : Type) : Type :=
  (list prop * (prop → access other))%type.

(** The [for] loop, from the lists built so far. *)
Fixpoint sort_properties {prop other : Type} (getitem : prop → access other)
    (props supported unsupported : list prop)
    : cell_exn other + (list prop * list prop) :=
  match props with
  | [] => inr (supported, unsupported)
  | p :: props' =>
      match getitem p with
      | Measured => sort_properties getitem props' (supported ++ [p]) unsupported
      | NotImplemented =>
          sort_properties getitem props' supported (unsupported ++ [p])
      | OtherError e => inl (Uncaught e)
      end
  end.

Definition supported_properties {prop other : Type}
    (regionprops : list (region prop other))
    : cell_exn other + (list prop * list prop) :=
  match regionprops with
  | [] => inl NoRegion
  | (props, getitem) :: _ => sort_properties getitem props [] []
  end.

Definition is_measured {other} (a : access other) : bool :=
  match a with Measured => true | _ => false end.

Definition is_not_implemented {other} (a : access other) : bool :=
  match a with NotImplemented => true | _ => false end.

Definition is_caught {other} (a : access other) : bool :=
  match a with OtherError _ => false | _ => true end.

(** [print("  " + "\n  ".join(supported))]: the text that is printed. *)
Definition newline : String.string :=
  String.String (Ascii.ascii_of_nat 10) String.EmptyString.
Definition two_spaces : String.string :=
  String.String (Ascii.ascii_of_nat 32)
    (String.String (Ascii.ascii_of_nat 32) String.EmptyString).

Definition indented_lines (names : list String.string) : String.string :=
  String.append two_spaces
    (String.concat (String.append newline two_spaces) names).

(** ** The grid of axes for an image collection

    [[
f, axes = plt.subplots(nrows=3, ncols=len(ic) // 3 + 1, figsize=(20, 5))
axes = axes.ravel()
...
for i, image in enumerate(ic):
    axes[i].imshow(image, cmap='gray')
    axes[i].set_title(os.path.basename(ic.files[i]))
    ]]

    An axes object is named by its position in the raveled grid. *)

Definition grid_axes (n_images : nat) : list nat :=
  seq 0 (3 * (n_images / 3 + 1)).

(** [axes[i]] *)
Definition getitem_axes (axes : list nat) (i : nat) : result nat :=
  match axes !! i with
  | Some ax => Ok ax
  | None => Raise IndexError
  end.

(** The loop over the images: the axes the images are drawn on, in order. *)
Definition place_images (n_images : nat) : result (list nat) :=
  for_loop (range n_images)
    (fun drawn i => ax ← getitem_axes (grid_axes n_images) i; Ok (drawn ++ [ax]))
    [].

(** * Properties *)

(** ** Multi-indices and row-major storage *)

Lemma length_flat_map_uniform {A B} (g : A → list B) (m : nat) (l : list A) :
  (∀ x, In x l → length (g x) = m) → length (flat_map g l) = length l * m.
Proof.
  induction l as [|x l IH]; intros Hg; simpl; [done|].
  rewrite length_app, Hg, IH; [lia| |by left].
  intros y Hy. apply Hg. by right.
Qed.

Lemma length_indices (s : list nat) : length (indices s) = size s.
Proof.
  induction s as [|n s IH]; simpl; [done|].
  rewrite (length_flat_map_uniform _ (size s)), length_seq; [done|].
  intros i _. by rewrite length_map.
Qed.

Lemma in_bounds_nil_l idx : in_bounds [] idx ↔ idx = [].
Proof. split; [by inversion 1|intros ->; constructor]. Qed.

Lemma in_bounds_cons n s idx :
  in_bounds (n :: s) idx ↔ ∃ i idx', idx = i :: idx' ∧ i < n ∧ in_bounds s idx'.
Proof.
  split.
  - inversion 1; subst. eauto.
  - intros (i & idx' & -> & Hi & H). by constructor.
Qed.

Lemma in_bounds_length s idx : in_bounds s idx → length idx = length s.
Proof. intros H. symmetry. by eapply Forall2_length. Qed.

Lemma In_indices (s idx : list nat) : In idx (indices s) ↔ in_bounds s idx.
Proof.
  revert idx. induction s as [|n s IH]; intros idx; simpl.
  - rewrite in_bounds_nil_l. split; [intros [<-|[]]; done|intros ->; by left].
  - rewrite in_flat_map, in_bounds_cons. split.
    + intros (i & Hi & Hin). apply in_seq in Hi.
      apply in_map_iff in Hin as (idx' & <- & Hin).
      exists i, idx'. split; [done|]. split; [lia|]. by apply IH.
    + intros (i & idx' & -> & Hi & Hb). exists i. split.
      * apply in_seq. lia.
      * apply in_map. by apply IH.
Qed.

Lemma ravel_lt (s idx : list nat) : in_bounds s idx → ravel s idx < size s.
Proof.
  induction 1 as [|n i s idx Hi _ IH]; simpl; [lia|].
  fold (size s). nia.
Qed.

Lemma nth_flat_map_uniform {A B} (g : A → list B) (m : nat) (l : list A)
    (i r : nat) (dA : A) (d : B) :
  (∀ x, In x l → length (g x) = m) → r < m → i < length l →
  nth (i * m + r) (flat_map g l) d = nth r (g (nth i l dA)) d.
Proof.
  revert i. induction l as [|x l IH]; intros i Hg Hr Hi; simpl in *; [lia|].
  destruct i as [|i]; simpl.
  - rewrite app_nth1; [done|]. rewrite Hg; [done|by left].
  - rewrite app_nth2; rewrite Hg by (by left); [|lia].
    replace (m + i * m + r - m) with (i * m + r) by lia.
    apply IH; [|done|lia]. intros y Hy. apply Hg. by right.
Qed.

Lemma nth_ravel_indices (s idx : list nat) (d : list nat) :
  in_bounds s idx → nth (ravel s idx) (indices s) d = idx.
Proof.
  induction 1 as [|n i s idx Hi Hb IH]; simpl; [done|].
  fold (size s).
  rewrite (nth_flat_map_uniform _ (size s) _ _ _ 0).
  - rewrite seq_nth by done. simpl.
    rewrite (nth_indep _ d (i :: d)).
    + by rewrite map_nth, IH.
    + rewrite length_map, length_indices. by apply ravel_lt.
  - intros x _. by rewrite length_map, length_indices.
  - by apply ravel_lt.
  - by rewrite length_seq.
Qed.

Lemma get_tabulate {A} (d : A) (s : list nat) (f : list nat → A) idx :
  in_bounds s idx → get d (tabulate s f) idx = f idx.
Proof.
  intros Hb. unfold get, tabulate; simpl.
  rewrite (nth_indep _ d (f [])).
  - by rewrite map_nth, nth_ravel_indices.
  - rewrite length_map, length_indices. by apply ravel_lt.
Qed.

Lemma tabulate_ext {A} (s : list nat) (f g : list nat → A) :
  (∀ idx, in_bounds s idx → f idx = g idx) → tabulate s f = tabulate s g.
Proof.
  intros H. unfold tabulate. f_equal.
  apply map_ext_in. intros idx Hin. apply H. by apply In_indices.
Qed.

Lemma amap_tabulate {A B} (g : A → B) s (f : list nat → A) :
  amap g (tabulate s f) = tabulate s (fun idx => g (f idx)).
Proof. unfold amap, tabulate; simpl. by rewrite map_map. Qed.

Lemma np_zeros_tabulate s : np_zeros s = tabulate s (fun _ => 0%R).
Proof.
  unfold np_zeros, tabulate. f_equal. rewrite <- length_indices.
  induction (indices s); simpl; by f_equal.
Qed.

Lemma map_add_seq (b a m : nat) : map (fun r => b + r) (seq a m) = seq (b + a) m.
Proof.
  revert a. induction m as [|m IH]; intros a; simpl; [done|].
  f_equal. rewrite IH. f_equal. lia.
Qed.

Lemma flat_map_seq_blocks (m n a : nat) :
  flat_map (fun i => seq (i * m) m) (seq a n) = seq (a * m) (n * m).
Proof.
  revert a. induction n as [|n IH]; intros a; simpl; [done|].
  rewrite seq_app, IH. do 2 f_equal. lia.
Qed.

Lemma map_ravel_indices (s : list nat) :
  map (ravel s) (indices s) = seq 0 (size s).
Proof.
  induction s as [|n s IH]; simpl; [done|]. fold (size s).
  transitivity (flat_map (fun i => seq (i * size s) (size s)) (seq 0 n));
    [|by rewrite flat_map_seq_blocks].
  generalize (seq 0 n) as l.
  induction l as [|i l IHl]; simpl; [done|].
  rewrite map_app, IHl. f_equal. rewrite map_map. simpl. fold (size s).
  rewrite <- (map_map (ravel s) (fun r => i * size s + r)), IH, map_add_seq.
  f_equal. lia.
Qed.

Lemma tabulate_get {A} (d : A) (a : ndarray A) :
  wf a → tabulate (shape a) (get d a) = a.
Proof.
  destruct a as [s l]. unfold wf, tabulate, get; simpl. intros Hwf. f_equal.
  rewrite <- (map_map (ravel s) (fun p => nth p l d)), map_ravel_indices, <- Hwf.
  clear. induction l as [|x l IH]; simpl; [done|].
  f_equal. by rewrite <- seq_shift, map_map.
Qed.

Lemma arr_ext {A} (d : A) (a b : ndarray A) :
  wf a → wf b → shape a = shape b →
  (∀ idx, in_bounds (shape a) idx → get d a idx = get d b idx) → a = b.
Proof.
  intros Ha Hb Hs Hget.
  rewrite <- (tabulate_get d a Ha), <- (tabulate_get d b Hb), <- Hs.
  by apply tabulate_ext.
Qed.

(** ** Broadcasting *)

Lemma pad_shape_id n s : length s = n → pad_shape n s = s.
Proof. intros <-. unfold pad_shape. by rewrite Nat.sub_diag. Qed.

Lemma broadcast_dims_ok (s1 s2 : list nat) :
  Forall2 (fun n1 n2 => n1 = n2 ∨ n1 = 1 ∨ n2 = 1) s1 s2 →
  broadcast_dims s1 s2 = Ok (zip_with bdim s1 s2).
Proof.
  induction 1 as [|n1 n2 s1 s2 Hn _ IH]; simpl; [done|].
  rewrite IH. simpl. unfold bdim.
  repeat case_match; rewrite ?Nat.eqb_eq, ?Nat.eqb_neq in *; f_equal; try lia;
    f_equal; lia.
Qed.

Lemma broadcast_shapes_ok (s1 s2 : list nat) :
  Forall2 (fun n1 n2 => n1 = n2 ∨ n1 = 1 ∨ n2 = 1) s1 s2 →
  broadcast_shapes s1 s2 = Ok (zip_with bdim s1 s2).
Proof.
  intros H. unfold broadcast_shapes.
  pose proof (Forall2_length _ _ _ H) as Hlen.
  rewrite !pad_shape_id by lia. by apply broadcast_dims_ok.
Qed.

Lemma broadcast_index_same_length s idx :
  length idx = length s →
  broadcast_index s idx = zip_with (fun n i => if n =? 1 then 0 else i) s idx.
Proof. intros H. unfold broadcast_index. by rewrite H, Nat.sub_diag. Qed.

Lemma nth_broadcast_index s idx a :
  length idx = length s →
  nth a (broadcast_index s idx) 0 = if nth a s 0 =? 1 then 0 else nth a idx 0.
Proof.
  intros Hlen. rewrite broadcast_index_same_length by done.
  revert idx a Hlen. induction s as [|n s IH]; intros [|i idx] a Hlen;
    simplify_eq/=; destruct a; simpl; try done. by apply IH.
Qed.

Lemma broadcast_index_in_bounds_l s1 s2 idx :
  Forall2 (fun n1 n2 => n1 = n2 ∨ n1 = 1 ∨ n2 = 1) s1 s2 →
  in_bounds (zip_with bdim s1 s2) idx → in_bounds s1 (broadcast_index s1 idx).
Proof.
  intros H Hb. rewrite broadcast_index_same_length.
  2:{ apply in_bounds_length in Hb. rewrite length_zip_with in Hb.
      apply Forall2_length in H. lia. }
  revert idx Hb. induction H as [|n1 n2 s1 s2 Hn _ IH]; intros idx Hb; simpl in *.
  - apply in_bounds_nil_l in Hb as ->. constructor.
  - apply in_bounds_cons in Hb as (i & idx' & -> & Hi & Hb). simpl.
    constructor; [|by apply IH].
    unfold bdim in Hi. repeat case_match; rewrite ?Nat.eqb_eq, ?Nat.eqb_neq in *; lia.
Qed.

Lemma broadcast_index_id s idx :
  in_bounds s idx → broadcast_index s idx = idx.
Proof.
  intros Hb. rewrite broadcast_index_same_length by (by apply in_bounds_length).
  induction Hb as [|n i s idx Hi _ IH]; simpl; [done|].
  rewrite IH. f_equal. case_match; [|done]. rewrite Nat.eqb_eq in *. lia.
Qed.

Lemma zip_with_bdim_same s : zip_with bdim s s = s.
Proof.
  induction s as [|n s IH]; simpl; [done|]. rewrite IH. f_equal.
  unfold bdim. case_match; [|done]. by rewrite Nat.eqb_eq in *.
Qed.

Lemma np_iadd_tabulate s (f g : list nat → R) :
  np_iadd (tabulate s f) (tabulate s g)
  = Ok (tabulate s (fun idx => (f idx + g idx)%R)).
Proof.
  unfold np_iadd, broadcast_op. simpl.
  rewrite broadcast_shapes_ok, zip_with_bdim_same
    by (apply Forall_Forall2_diag, Forall_forall; auto).
  simpl. rewrite decide_True by done. f_equal.
  apply tabulate_ext. intros idx Hb.
  by rewrite broadcast_index_id, !get_tabulate.
Qed.

(** ** The kernel built by the inner loop *)

Lemma Zprod_app l1 l2 : Zprod (l1 ++ l2) = (Zprod l1 * Zprod l2)%Z.
Proof. induction l1 as [|x l1 IH]; simpl; [|rewrite IH]; lia. Qed.

Lemma Zprod_seq_scale_one (f g : nat → Z) (c : Z) (n j : nat) :
  j < n → (∀ s, s ≠ j → g s = f s) → g j = (c * f j)%Z →
  Zprod (map g (seq 0 n)) = (c * Zprod (map f (seq 0 n)))%Z.
Proof.
  intros Hj Hne Heq.
  assert (∀ m, m ≤ j → Zprod (map g (seq 0 m)) = Zprod (map f (seq 0 m))) as Hlow.
  { induction m as [|m IH]; intros Hm; [done|].
    rewrite seq_S, !map_app, !Zprod_app, IH by lia. simpl.
    rewrite Hne by lia. done. }
  induction n as [|n IH]; [lia|].
  rewrite seq_S, !map_app, !Zprod_app. simpl.
  destruct (decide (j = n)) as [->|Hjn].
  - rewrite Hlow, Heq by lia. lia.
  - rewrite IH, Hne by lia. lia.
Qed.

Lemma Zprod_map_ext (f g : nat → Z) l :
  (∀ s, In s l → f s = g s) → Zprod (map f l) = Zprod (map g l).
Proof. intros H. f_equal. by apply map_ext_in. Qed.

Lemma size_replicate_1 n : size (replicate n 1) = 1.
Proof. induction n as [|n IH]; simpl; [done|]. fold (size (replicate n 1)). lia. Qed.

Lemma size_oriented n j : j < n → size (<[j:=3]> (replicate n 1)) = 3.
Proof.
  revert j. induction n as [|n IH]; intros j Hj; [lia|].
  destruct j as [|j]; simpl.
  - fold (size (replicate n 1)). rewrite size_replicate_1. lia.
  - fold (size (<[j:=3]> (replicate n 1))). rewrite IH; lia.
Qed.

Lemma ravel_zeros s idx : (∀ a, nth a idx 0 = 0) → ravel s idx = 0.
Proof.
  revert idx. induction s as [|n s IH]; intros [|i idx] H; simpl; try done.
  rewrite IH; [|intros a; apply (H (S a))]. specialize (H 0). simpl in H. lia.
Qed.

Lemma ravel_oriented n j idx :
  j < n → (∀ a, a ≠ j → nth a idx 0 = 0) →
  ravel (<[j:=3]> (replicate n 1)) idx = nth j idx 0.
Proof.
  revert j idx. induction n as [|n IH]; intros j idx Hj H; [lia|].
  destruct idx as [|i idx].
  { by destruct j. }
  destruct j as [|j]; simpl.
  - fold (size (replicate n 1)). rewrite size_replicate_1, ravel_zeros; [lia|].
    intros a. apply (H (S a)). lia.
  - rewrite IH; [|lia|intros a Ha; apply (H (S a)); lia].
    specialize (H 0). simpl in H. rewrite H by lia. lia.
Qed.

Lemma nth_map_seq {A} (f : nat → A) (n a : nat) (d : A) :
  a < n → nth a (map f (seq 0 n)) d = f a.
Proof.
  intros Ha. rewrite (nth_indep _ d (f 0)) by (by rewrite length_map, length_seq).
  by rewrite map_nth, seq_nth.
Qed.

Lemma nth_oriented n j a :
  a < n → nth a (<[j:=3]> (replicate n 1)) 0 = if a =? j then 3 else 1.
Proof.
  intros Ha. rewrite nth_lookup, list_lookup_insert, length_replicate.
  rewrite lookup_replicate_2 by done.
  case_decide; case_match; rewrite ?Nat.eqb_eq, ?Nat.eqb_neq in *; simpl; lia.
Qed.

Lemma nth_stage_shape n d j a :
  a < n → nth a (stage_shape n d j) 0 = stage_dim d j a.
Proof. apply nth_map_seq. Qed.

Lemma length_stage_shape n d j : length (stage_shape n d j) = n.
Proof. unfold stage_shape. by rewrite length_map, length_seq. Qed.

Lemma length_oriented n j : length (<[j:=3]> (replicate n 1)) = n.
Proof. by rewrite length_insert, length_replicate. Qed.

Lemma stage_shape_0 n d : stage_shape n d 0 = <[d:=3]> (replicate n 1).
Proof.
  apply (nth_ext _ _ 0 0); rewrite length_stage_shape; [by rewrite length_oriented|].
  intros a Ha. rewrite nth_stage_shape, nth_oriented by done.
  unfold stage_dim. by rewrite orb_false_r.
Qed.

Lemma in_bounds_nth s idx :
  in_bounds s idx ↔
  length idx = length s ∧ ∀ a, a < length s → nth a idx 0 < nth a s 0.
Proof.
  split.
  - intros H. split; [by apply in_bounds_length|].
    induction H as [|n i s idx Hi _ IH]; intros a Ha; simpl in *; [lia|].
    destruct a; [done|]. apply IH. lia.
  - revert idx. induction s as [|n s IH]; intros [|i idx] [Hlen H];
      simplify_eq/=; constructor.
    + apply (H 0). lia.
    + apply IH. split; [done|]. intros a Ha. apply (H (S a)). lia.
Qed.

Lemma nth_zip_with {A B C} (f : A → B → C) l1 l2 a dA dB dC :
  a < length l1 → a < length l2 →
  nth a (zip_with f l1 l2) dC = f (nth a l1 dA) (nth a l2 dB).
Proof.
  revert l2 a. induction l1 as [|x l1 IH]; intros [|y l2] [|a] H1 H2;
    simpl in *; try lia; [done|]. apply IH; lia.
Qed.

Lemma stage_shape_skip n d : stage_shape n d (S d) = stage_shape n d d.
Proof.
  apply map_ext. intros s. unfold stage_dim.
  destruct (Nat.eqb_spec s d), (Nat.ltb_spec s (S d)), (Nat.ltb_spec s d);
    simpl; try done; lia.
Qed.

Lemma stage_shape_step n d j :
  j < n → j ≠ d →
  zip_with bdim (stage_shape n d j) (<[j:=3]> (replicate n 1))
  = stage_shape n d (S j).
Proof.
  intros Hj Hjd.
  apply (nth_ext _ _ 0 0);
    rewrite length_zip_with, !length_stage_shape, length_oriented; [lia|].
  intros a Ha. rewrite Nat.min_id in Ha.
  rewrite (nth_zip_with _ _ _ _ 0 0)
    by (by rewrite ?length_stage_shape, ?length_oriented).
  rewrite !nth_stage_shape, nth_oriented by done.
  unfold bdim, stage_dim.
  destruct (Nat.eqb_spec a d), (Nat.eqb_spec a j), (Nat.ltb_spec a (S j)),
    (Nat.ltb_spec a j); simpl; try done; lia.
Qed.

Lemma stage_shape_compat n d j :
  j < n →
  Forall2 (fun n1 n2 => n1 = n2 ∨ n1 = 1 ∨ n2 = 1)
    (stage_shape n d j) (<[j:=3]> (replicate n 1)).
Proof.
  intros Hj. apply Forall2_same_length_lookup.
  split; [by rewrite length_stage_shape, length_oriented|].
  intros a n1 n2 H1 H2.
  assert (a < n) as Ha.
  { apply lookup_lt_Some in H1. by rewrite length_stage_shape in H1. }
  pose proof (nth_stage_shape n d j a Ha) as E1.
  pose proof (nth_oriented n j a Ha) as E2.
  rewrite nth_lookup, H1 in E1. rewrite nth_lookup, H2 in E2. simpl in *. subst.
  unfold stage_dim. repeat case_match; auto.
Qed.

Lemma stage_shape_final n d : d < n → stage_shape n d n = replicate n 3.
Proof.
  intros Hd. apply (nth_ext _ _ 0 0);
    rewrite length_stage_shape; [by rewrite length_replicate|].
  intros a Ha. rewrite nth_stage_shape by done.
  rewrite nth_lookup, lookup_replicate_2 by done. simpl.
  unfold stage_dim. destruct (Nat.ltb_spec a n); [|lia]. by rewrite orb_true_r.
Qed.

Lemma stage_weight_final n d k :
  stage_weight n d n k = kernel_weight n d k.
Proof.
  apply Zprod_map_ext. intros s Hs. apply in_seq in Hs.
  unfold stage_factor. destruct (Nat.ltb_spec s n); [done|lia].
Qed.

Lemma stage_weight_skip n d k :
  stage_weight n d (S d) k = stage_weight n d d k.
Proof.
  apply Zprod_map_ext. intros s Hs. unfold stage_factor.
  destruct (Nat.eqb_spec s d), (Nat.ltb_spec s (S d)), (Nat.ltb_spec s d);
    try done; lia.
Qed.

Lemma stage_weight_step n d j k :
  j < n → j ≠ d →
  stage_weight n d (S j) k
  = (stage_weight n d j k * smooth_w (nth j k 0%nat))%Z.
Proof.
  intros Hj Hjd. unfold stage_weight. rewrite Z.mul_comm.
  apply Zprod_seq_scale_one with (j := j); [done| |].
  - intros s Hs. unfold stage_factor.
    destruct (Nat.eqb_spec s d), (Nat.ltb_spec s (S j)), (Nat.ltb_spec s j);
      try done; lia.
  - unfold stage_factor.
    destruct (Nat.eqb_spec j d), (Nat.ltb_spec j (S j)), (Nat.ltb_spec j j);
      try done; lia.
Qed.

Lemma stage_weight_broadcast n d j k :
  length k = n →
  stage_weight n d j (broadcast_index (stage_shape n d j) k)
  = stage_weight n d j k.
Proof.
  intros Hk. apply Zprod_map_ext. intros s Hs. apply in_seq in Hs.
  rewrite nth_broadcast_index by (by rewrite length_stage_shape).
  rewrite nth_stage_shape by lia.
  unfold stage_dim, stage_factor.
  destruct (Nat.eqb_spec s d), (Nat.ltb_spec s j); simpl; done.
Qed.

Lemma kernel_shape_ok n j :
  j < n → kernel_shape n j = Ok (<[j:=3]> (replicate n 1)).
Proof.
  intros Hj. unfold kernel_shape. rewrite length_replicate.
  destruct (Nat.ltb_spec j n); [done|lia].
Qed.

Lemma kernel_shape_raise n j : n ≤ j → kernel_shape n j = Raise IndexError.
Proof.
  intros Hj. unfold kernel_shape. rewrite length_replicate.
  destruct (Nat.ltb_spec j n); [lia|done].
Qed.

Lemma reshape_oriented (l : list Z) n j :
  j < n → reshape (mkarr [3] l) (<[j:=3]> (replicate n 1))
          = Ok (mkarr (<[j:=3]> (replicate n 1)) l).
Proof. intros Hj. unfold reshape. by rewrite size_oriented. Qed.

Lemma get_oriented_broadcast (l : list Z) n j idx :
  j < n → length idx = n →
  get 0%Z (mkarr (<[j:=3]> (replicate n 1)) l)
    (broadcast_index (<[j:=3]> (replicate n 1)) idx)
  = nth (nth j idx 0) l 0%Z.
Proof.
  intros Hj Hlen. unfold get; simpl. f_equal.
  rewrite ravel_oriented; [|done|].
  - rewrite nth_broadcast_index, nth_oriented by (by rewrite ?length_oriented).
    by rewrite Nat.eqb_refl.
  - intros a Ha. rewrite nth_broadcast_index by (by rewrite length_oriented).
    destruct (decide (a < n)) as [Han|Han].
    + rewrite nth_oriented by done.
      destruct (Nat.eqb_spec a j); [done|]. by rewrite Nat.eqb_refl.
    + case_match; [done|]. apply nth_overflow. lia.
Qed.

Lemma smooth_step n d j :
  j < n → j ≠ d →
  np_multiply (tabulate (stage_shape n d j) (stage_weight n d j))
              (mkarr (<[j:=3]> (replicate n 1)) [1; 2; 1]%Z)
  = Ok (tabulate (stage_shape n d (S j)) (stage_weight n d (S j))).
Proof.
  intros Hj Hjd. unfold np_multiply, broadcast_op. simpl.
  rewrite broadcast_shapes_ok by (by apply stage_shape_compat).
  simpl. rewrite stage_shape_step by done. f_equal.
  apply tabulate_ext. intros idx Hb.
  assert (length idx = n) as Hlen.
  { apply in_bounds_length in Hb. by rewrite length_stage_shape in Hb. }
  rewrite <- (stage_shape_step n d j) in Hb by done.
  rewrite get_tabulate
    by (eapply broadcast_index_in_bounds_l; [by apply stage_shape_compat|done]).
  rewrite stage_weight_broadcast, get_oriented_broadcast by done.
  by rewrite stage_weight_step.
Qed.

Lemma smooth_loop n d m j :
  j + m = n →
  for_loop (seq j m)
    (fun kernel smooth_dim =>
       if smooth_dim =? d then Ok kernel
       else
         ss ← kernel_shape n smooth_dim;
         sm ← reshape smooth ss;
         np_multiply kernel sm)
    (tabulate (stage_shape n d j) (stage_weight n d j))
  = Ok (tabulate (stage_shape n d n) (stage_weight n d n)).
Proof.
  revert j. induction m as [|m IH]; intros j Hjm; simpl.
  - by replace j with n by lia.
  - destruct (Nat.eqb_spec j d) as [->|Hjd]; simpl.
    + rewrite <- (IH (S d)) by lia. f_equal.
      rewrite stage_shape_skip. apply tabulate_ext. intros idx _.
      symmetry. apply stage_weight_skip.
    + rewrite kernel_shape_ok by lia. simpl.
      unfold smooth. rewrite reshape_oriented by lia. simpl.
      rewrite smooth_step by (done || lia). simpl. apply IH. lia.
Qed.

Lemma edge_oriented n d :
  d < n →
  mkarr (<[d:=3]> (replicate n 1)) [1; 0; -1]%Z
  = tabulate (stage_shape n d 0) (stage_weight n d 0).
Proof.
  intros Hd. apply (arr_ext 0%Z).
  - unfold wf; simpl. by rewrite size_oriented.
  - unfold wf, tabulate; simpl. by rewrite length_map, length_indices.
  - simpl. by rewrite stage_shape_0.
  - simpl. intros idx Hb.
    rewrite get_tabulate by (by rewrite stage_shape_0).
    rewrite <- (broadcast_index_id _ _ Hb) at 1.
    assert (length idx = n) as Hlen.
    { apply in_bounds_length in Hb. by rewrite length_oriented in Hb. }
    rewrite get_oriented_broadcast by done.
    apply in_bounds_nth in Hb as [_ Hb]. rewrite length_oriented in Hb.
    unfold stage_weight.
    rewrite (Zprod_seq_scale_one (fun _ => 1%Z) _ (edge_w (nth d idx 0)) n d).
    + replace (Zprod (map (fun _ => 1%Z) (seq 0 n))) with 1%Z; [unfold edge_w; lia|].
      clear. generalize 0. induction n as [|n IH]; intros a; simpl; [done|].
      by rewrite <- IH.
    + done.
    + intros s Hs. unfold stage_factor.
      destruct (Nat.eqb_spec s d); [done|]. done.
    + unfold stage_factor. rewrite Nat.eqb_refl. lia.
Qed.

Lemma sobel_kernel_ok n d :
  d < n →
  sobel_kernel n d = Ok (tabulate (replicate n 3) (kernel_weight n d)).
Proof.
  intros Hd. unfold sobel_kernel.
  rewrite kernel_shape_ok by done. simpl.
  unfold edge. rewrite reshape_oriented by done. simpl.
  rewrite edge_oriented by done. unfold range.
  rewrite smooth_loop by lia. f_equal.
  rewrite stage_shape_final by done.
  apply tabulate_ext. intros idx _. apply stage_weight_final.
Qed.

(** ** The reference definition *)

Lemma extend_reflect_mirror n i j :
  i < n → j < 3 →
  extend_reflect n (Z.of_nat i + 1 - Z.of_nat j)
  = mirror_coord n (Z.of_nat i + 1 - Z.of_nat j).
Proof.
  intros Hi Hj. unfold extend_reflect, mirror_coord.
  set (c := (Z.of_nat i + 1 - Z.of_nat j)%Z).
  assert (-1 ≤ c ≤ Z.of_nat n)%Z as Hc by lia. clearbody c.
  f_equal.
  destruct (Z.ltb_spec c 0) as [Hneg|Hpos].
  - replace c with (-1)%Z by lia.
    replace (-1 mod (2 * Z.of_nat n))%Z with (2 * Z.of_nat n - 1)%Z.
    + destruct (Z.ltb_spec (2 * Z.of_nat n - 1) (Z.of_nat n)); lia.
    + apply (Z.mod_unique _ _ (-1)); lia.
  - rewrite Z.mod_small by lia. done.
Qed.

Lemma neighbour_mirror s idx k :
  in_bounds s idx → in_bounds (replicate (length s) 3) k →
  neighbour s (replicate (length s) 3) idx k = mirror s idx k.
Proof.
  intros Hb. revert k. induction Hb as [|n i s idx Hi _ IH]; intros k Hk; simpl.
  - done.
  - simpl in Hk. apply in_bounds_cons in Hk as (j & k' & -> & Hj & Hk).
    f_equal; [|by apply IH].
    change (Z.of_nat (3 / 2)) with 1%Z. by apply extend_reflect_mirror.
Qed.

Lemma Rsum_app l1 l2 : Rsum (l1 ++ l2) = (Rsum l1 + Rsum l2)%R.
Proof. unfold Rsum. induction l1 as [|x l1 IH]; simpl; [|rewrite IH]; lra. Qed.

Lemma Rsum_squares_nonneg {A} (f : A → R) l : (0 <= Rsum (map (fun x => f x ^ 2) l))%R.
Proof.
  unfold Rsum. induction l as [|x l IH]; cbn [foldr map]; [lra|].
  pose proof (pow2_ge_0 (f x)) as H. lra.
Qed.

Lemma filter_pos_replicate_3 n :
  filter (fun m => 0 < m) (replicate n 3) = replicate n 3.
Proof.
  induction n as [|n IH]; simpl; [done|].
  rewrite filter_cons_True by lia. by rewrite IH.
Qed.

Lemma convolve_ok image d :
  convolve image (tabulate (replicate (ndim image) 3) (kernel_weight (ndim image) d))
  = Ok (tabulate (shape image) (ref_convolve image d)).
Proof.
  unfold convolve. simpl.
  rewrite filter_pos_replicate_3, length_replicate, Nat.eqb_refl. f_equal.
  apply tabulate_ext. intros idx Hb. unfold ref_convolve. f_equal.
  apply map_ext_in. intros k Hk. apply In_indices in Hk.
  rewrite get_tabulate by done.
  unfold ndim in *. by rewrite neighbour_mirror.
Qed.

Lemma edge_loop image m j :
  j + m = ndim image →
  for_loop (seq j m)
    (fun output edge_dim =>
       kernel ← sobel_kernel (ndim image) edge_dim;
       conv ← convolve image kernel;
       np_iadd output (np_square conv))
    (tabulate (shape image) (fun idx =>
       Rsum (map (fun d => (ref_convolve image d idx) ^ 2)%R (seq 0 j))))
  = Ok (tabulate (shape image) (fun idx =>
       Rsum (map (fun d => (ref_convolve image d idx) ^ 2)%R
                 (seq 0 (ndim image))))).
Proof.
  revert j. induction m as [|m IH]; intros j Hjm; cbn [for_loop seq].
  - by replace j with (ndim image) by lia.
  - rewrite sobel_kernel_ok by lia. cbn [mbind result_bind].
    rewrite convolve_ok. cbn [mbind result_bind].
    unfold np_square. rewrite amap_tabulate, np_iadd_tabulate.
    cbn [mbind result_bind].
    rewrite <- (IH (S j)) by lia. f_equal.
    apply tabulate_ext. intros idx _.
    rewrite seq_S, map_app, Rsum_app. simpl. lra.
Qed.

Lemma np_sqrt_nonneg x : (0 <= x)%R → np_sqrt x = Fin (sqrt x).
Proof. intros Hx. unfold np_sqrt. destruct (Rlt_dec x 0); [lra|done]. Qed.

Lemma np_divide_fin a b : b ≠ 0%R → np_divide (Fin a) (Fin b) = Fin (a / b).
Proof. intros Hb. unfold np_divide. by destruct (Req_dec_T b 0). Qed.

Lemma sqrt_ndim_pos n : 1 ≤ n → (0 < sqrt (INR n))%R.
Proof. intros Hn. apply sqrt_lt_R0. apply lt_0_INR. lia. Qed.

(** [sobel] computes the reference definition. *)
Lemma sobel_ref image : 1 ≤ ndim image → sobel image = Ok (ref_sobel image).
Proof.
  intros Hn. unfold sobel, range. cbv zeta.
  rewrite np_zeros_tabulate.
  pose proof (edge_loop image (ndim image) 0 eq_refl) as Hloop.
  change (seq 0 0) with (@nil nat) in Hloop. cbn [map] in Hloop.
  change (Rsum []) with 0%R in Hloop.
  rewrite Hloop. cbn [mbind result_bind].
  rewrite amap_tabulate. f_equal. unfold ref_sobel.
  apply tabulate_ext. intros idx _.
  rewrite np_sqrt_nonneg by apply Rsum_squares_nonneg.
  rewrite np_sqrt_nonneg by apply pos_INR.
  apply np_divide_fin. pose proof (sqrt_ndim_pos _ Hn). lra.
Qed.

(** ** Flipping along an axis *)

Lemma flip_index_in_bounds s a idx :
  in_bounds s idx → in_bounds s (flip_index s a idx).
Proof.
  intros Hb. revert a. induction Hb as [|n i s idx Hi Hb IH]; intros a; simpl.
  - constructor.
  - destruct a; constructor; try done; [lia|apply IH].
Qed.

Lemma nth_flip_index s a idx b :
  a < length s → length idx = length s →
  nth b (flip_index s a idx) 0
  = if b =? a then nth a s 0 - 1 - nth a idx 0 else nth b idx 0.
Proof.
  revert a idx b. induction s as [|n s IH]; intros a [|i idx] b Ha Hlen;
    simpl in *; try lia.
  destruct a as [|a], b as [|b]; simpl; try done.
  rewrite IH by lia. done.
Qed.

Lemma Rsum_Permutation l1 l2 : Permutation l1 l2 → Rsum l1 = Rsum l2.
Proof.
  unfold Rsum. induction 1; simpl; lra.
Qed.

Lemma Permutation_flat_map_pointwise {A B} (f g : A → list B) l :
  (∀ x, In x l → Permutation (f x) (g x)) →
  Permutation (flat_map f l) (flat_map g l).
Proof.
  induction l as [|x l IH]; intros H; simpl; [done|].
  apply Permutation_app; [apply H; by left|]. apply IH. intros y Hy. apply H. by right.
Qed.

Lemma map_sub_seq_rev n : map (fun i => n - 1 - i) (seq 0 n) = rev (seq 0 n).
Proof.
  apply (nth_ext _ _ 0 0); [by rewrite length_rev, length_map|].
  intros a Ha. rewrite length_map, length_seq in Ha.
  rewrite nth_map_seq by done.
  rewrite rev_nth by (by rewrite length_seq).
  rewrite length_seq, seq_nth by lia. lia.
Qed.

Lemma map_over_flat_map {A B C} (h : B → C) (f : A → list B) l :
  map h (flat_map f l) = flat_map (fun x => map h (f x)) l.
Proof. induction l as [|x l IH]; simpl; [done|]. by rewrite map_app, IH. Qed.

Lemma flat_map_over_map {A B C} (f : B → list C) (g : A → B) l :
  flat_map f (map g l) = flat_map (fun x => f (g x)) l.
Proof. induction l as [|x l IH]; simpl; [done|]. by rewrite IH. Qed.

Lemma Permutation_flip_indices s a :
  Permutation (map (flip_index s a) (indices s)) (indices s).
Proof.
  revert a. induction s as [|n s IH]; intros a; simpl.
  - destruct a; done.
  - rewrite map_over_flat_map. destruct a as [|a].
    + transitivity (flat_map (fun i => map (cons i) (indices s))
                      (map (fun i => n - 1 - i) (seq 0 n))).
      * rewrite flat_map_over_map.
        apply Permutation_flat_map_pointwise. intros i _.
        by rewrite map_map.
      * rewrite map_sub_seq_rev. apply Permutation_flat_map.
        symmetry. apply Permutation_rev.
    + apply Permutation_flat_map_pointwise. intros i _.
      rewrite map_map. simpl.
      rewrite <- (map_map (flip_index s a) (cons i)).
      apply Permutation_map. apply IH.
Qed.

Lemma Rsum_flip_indices (g : list nat → R) s a :
  Rsum (map (fun k => g (flip_index s a k)) (indices s))
  = Rsum (map g (indices s)).
Proof.
  rewrite <- (map_map (flip_index s a) g).
  apply Rsum_Permutation, Permutation_map, Permutation_flip_indices.
Qed.

Lemma in_bounds_replicate_nth n m k a :
  in_bounds (replicate n m) k → a < n → nth a k 0 < m.
Proof.
  intros Hb Ha. apply in_bounds_nth in Hb as [_ Hb].
  rewrite length_replicate in Hb. specialize (Hb a Ha).
  by rewrite (nth_lookup (replicate n m)), lookup_replicate_2 in Hb.
Qed.

Lemma edge_w_flip j : j < 3 → edge_w (3 - 1 - j) = (- edge_w j)%Z.
Proof. intros Hj. by destruct j as [|[|[|j]]]; [..|lia]. Qed.

Lemma smooth_w_flip j : j < 3 → smooth_w (3 - 1 - j) = smooth_w j.
Proof. intros Hj. by destruct j as [|[|[|j]]]; [..|lia]. Qed.

Lemma kernel_weight_flip n d a k :
  a < n → in_bounds (replicate n 3) k →
  kernel_weight n d (flip_index (replicate n 3) a k)
  = (flip_sign a d * kernel_weight n d k)%Z.
Proof.
  intros Ha Hb. unfold kernel_weight.
  pose proof (in_bounds_length _ _ Hb) as Hlen.
  pose proof (in_bounds_replicate_nth _ _ _ a Hb Ha) as Hka.
  apply Zprod_seq_scale_one with (j := a); [done| |].
  - intros s Hs. rewrite nth_flip_index by (by rewrite ?length_replicate in * ).
    destruct (Nat.eqb_spec s a); [done|]. done.
  - rewrite nth_flip_index by (by rewrite ?length_replicate in * ).
    rewrite Nat.eqb_refl, (nth_lookup (replicate n 3)), lookup_replicate_2 by done.
    simpl default. unfold flip_sign.
    destruct (Nat.eqb_spec a d).
    + rewrite edge_w_flip by done. lia.
    + rewrite smooth_w_flip by done. lia.
Qed.

Lemma mirror_coord_lt n i j : i < n → j < 3 →
  mirror_coord n (Z.of_nat i + 1 - Z.of_nat j) < n.
Proof.
  intros Hi Hj. unfold mirror_coord. repeat case_match;
    rewrite ?Z.ltb_lt, ?Z.ltb_ge in *; lia.
Qed.

Lemma mirror_coord_flip n i j : i < n → j < 3 →
  n - 1 - mirror_coord n (Z.of_nat i + 1 - Z.of_nat j)
  = mirror_coord n (Z.of_nat (n - 1 - i) + 1 - Z.of_nat (3 - 1 - j)).
Proof.
  intros Hi Hj. unfold mirror_coord. repeat case_match;
    rewrite ?Z.ltb_lt, ?Z.ltb_ge in *; lia.
Qed.

Lemma mirror_in_bounds s idx k :
  in_bounds s idx → in_bounds (replicate (length s) 3) k →
  in_bounds s (mirror s idx k).
Proof.
  intros Hb. revert k. induction Hb as [|n i s idx Hi _ IH]; intros k Hk; simpl.
  - constructor.
  - simpl in Hk. apply in_bounds_cons in Hk as (j & k' & -> & Hj & Hk).
    constructor; [by apply mirror_coord_lt|by apply IH].
Qed.

Lemma mirror_flip s a idx k :
  in_bounds s idx → in_bounds (replicate (length s) 3) k →
  flip_index s a (mirror s idx k)
  = mirror s (flip_index s a idx) (flip_index (replicate (length s) 3) a k).
Proof.
  intros Hb. revert a k.
  induction Hb as [|n i s idx Hi _ IH]; intros a k Hk; simpl.
  - done.
  - simpl in Hk. apply in_bounds_cons in Hk as (j & k' & -> & Hj & Hk).
    destruct a as [|a]; simpl.
    + f_equal. by apply mirror_coord_flip.
    + f_equal. by apply IH.
Qed.

Lemma Rsum_scale (c : R) {A} (f : A → R) l :
  Rsum (map (fun x => (c * f x)%R) l) = (c * Rsum (map f l))%R.
Proof. unfold Rsum. induction l as [|x l IH]; simpl; [|rewrite IH]; lra. Qed.

Lemma Rsum_map_ext {A} (f g : A → R) l :
  (∀ x, In x l → f x = g x) → Rsum (map f l) = Rsum (map g l).
Proof. intros H. f_equal. by apply map_ext_in. Qed.

Lemma ndim_np_flip {A} (d : A) axis (a : ndarray A) :
  ndim (np_flip d axis a) = ndim a.
Proof. done. Qed.

Lemma ref_convolve_flip image a d idx :
  a < ndim image → in_bounds (shape image) idx →
  ref_convolve (np_flip 0%R a image) d idx
  = (IZR (flip_sign a d)
     * ref_convolve image d (flip_index (shape image) a idx))%R.
Proof.
  intros Ha Hb. unfold ref_convolve at 2.
  rewrite <- (Rsum_flip_indices _ _ a), <- Rsum_scale.
  unfold ref_convolve. rewrite ndim_np_flip.
  apply Rsum_map_ext. intros k Hk. apply In_indices in Hk.
  rewrite kernel_weight_flip by done.
  unfold ndim in *. rewrite <- mirror_flip by done.
  unfold np_flip at 1. simpl shape.
  rewrite get_tabulate by (by apply mirror_in_bounds).
  rewrite mult_IZR.
  assert (IZR (flip_sign a d) * IZR (flip_sign a d) = 1)%R as Hsq.
  { unfold flip_sign. case_match; simpl; lra. }
  set (x := IZR (flip_sign a d)) in *.
  set (w := IZR (kernel_weight _ _ _)). set (v := get _ _ _).
  transitivity ((x * x) * (w * v))%R; [rewrite Hsq|]; lra.
Qed.

Lemma wf_tabulate {A} s (f : list nat → A) : wf (tabulate s f).
Proof. unfold wf, tabulate; simpl. by rewrite length_map, length_indices. Qed.

Lemma flip_index_unit s a idx :
  nth a s 0 = 1 → in_bounds s idx → flip_index s a idx = idx.
Proof.
  intros Ha Hb. revert a Ha.
  induction Hb as [|n i s idx Hi _ IH]; intros a Ha; simpl; [done|].
  destruct a as [|a]; simpl in *.
  - f_equal. lia.
  - f_equal. by apply IH.
Qed.

Lemma ref_convolve_unit_axis image d idx :
  d < ndim image → nth d (shape image) 0 = 1 →
  in_bounds (shape image) idx → ref_convolve image d idx = 0%R.
Proof.
  intros Hd H1 Hb.
  assert (ref_convolve image d idx = (-1 * ref_convolve image d idx)%R) as E; [|lra].
  unfold ref_convolve at 1.
  rewrite <- (Rsum_flip_indices _ _ d). unfold ref_convolve. rewrite <- Rsum_scale.
  apply Rsum_map_ext. intros k Hk. apply In_indices in Hk.
  rewrite kernel_weight_flip by done.
  unfold ndim in *.
  rewrite <- (flip_index_unit (shape image) d idx) at 1 by done.
  rewrite <- mirror_flip by done.
  rewrite flip_index_unit by (done || by apply mirror_in_bounds).
  rewrite mult_IZR. unfold flip_sign. rewrite Nat.eqb_refl. lra.
Qed.

Lemma get_constant c image idx :
  constant c image → in_bounds (shape image) idx → get 0%R image idx = c.
Proof.
  intros [Hwf Hc] Hb. unfold get.
  apply ravel_lt in Hb. rewrite <- Hwf in Hb.
  rewrite Forall_forall in Hc. apply Hc, list_elem_of_In, nth_In, Hb.
Qed.

Lemma ref_convolve_constant c image d idx :
  constant c image → d < ndim image → in_bounds (shape image) idx →
  ref_convolve image d idx = 0%R.
Proof.
  intros Hc Hd Hb.
  assert (ref_convolve image d idx = (-1 * ref_convolve image d idx)%R) as E; [|lra].
  unfold ref_convolve at 1.
  rewrite <- (Rsum_flip_indices _ _ d). unfold ref_convolve. rewrite <- Rsum_scale.
  apply Rsum_map_ext. intros k Hk. apply In_indices in Hk.
  rewrite kernel_weight_flip by done.
  unfold ndim in *.
  rewrite !(get_constant c)
    by (done || apply mirror_in_bounds; done || by apply flip_index_in_bounds).
  rewrite mult_IZR. unfold flip_sign. rewrite Nat.eqb_refl. lra.
Qed.

Lemma Rsum_zero {A} (f : A → R) l :
  (∀ x, In x l → f x = 0%R) → Rsum (map f l) = 0%R.
Proof.
  unfold Rsum. induction l as [|x l IH]; intros H; simpl; [done|].
  rewrite IH, H; [lra|by left|]. intros y Hy. apply H. by right.
Qed.

Lemma sobel_constant c image :
  1 ≤ ndim image → constant c image →
  sobel image = Ok (mkarr (shape image) (replicate (size (shape image)) (Fin 0))).
Proof.
  intros Hn Hc. rewrite sobel_ref by done. f_equal.
  unfold ref_sobel, tabulate. f_equal.
  rewrite <- length_indices.
  assert (∀ idx, In idx (indices (shape image)) →
     Fin (sqrt (Rsum (map (fun d => (ref_convolve image d idx ^ 2)%R)
                           (seq 0 (ndim image)))) / sqrt (INR (ndim image)))
     = Fin 0) as Hz.
  { intros idx Hidx. apply In_indices in Hidx. f_equal.
    rewrite Rsum_zero.
    - rewrite sqrt_0. unfold Rdiv. lra.
    - intros d Hd. apply in_seq in Hd.
      rewrite (ref_convolve_constant c) by (done || lia). lra. }
  revert Hz. generalize (indices (shape image)) as l.
  induction l as [|x l IH]; intros Hz; cbn [map length replicate]; [done|].
  rewrite Hz by (by left). f_equal. apply IH. intros y Hy. apply Hz. by right.
Qed.

Lemma get_np_scale c image idx :
  get 0%R (np_scale c image) idx = (c * get 0%R image idx)%R.
Proof.
  unfold get, np_scale, amap; simpl.
  rewrite <- (Rmult_0_r c) at 1. apply map_nth.
Qed.

Lemma ref_convolve_scale c image d idx :
  ref_convolve (np_scale c image) d idx = (c * ref_convolve image d idx)%R.
Proof.
  unfold ref_convolve. rewrite <- Rsum_scale.
  apply Rsum_map_ext. intros k _.
  change (ndim (np_scale c image)) with (ndim image).
  change (shape (np_scale c image)) with (shape image).
  rewrite get_np_scale. lra.
Qed.

Lemma ref_convolve_1d n l i :
  ref_convolve (mkarr [n] l) 0 [i]
  = (1 * get 0 (mkarr [n] l) [mirror_coord n (Z.of_nat i + 1)]
     + 0 * get 0 (mkarr [n] l) [mirror_coord n (Z.of_nat i)]
     + -1 * get 0 (mkarr [n] l) [mirror_coord n (Z.of_nat i - 1)])%R.
Proof.
  unfold ref_convolve, kernel_weight, Rsum. cbn -[mirror_coord get IZR Z.of_nat].
  replace (Z.of_nat i + 1 - Z.of_nat 0)%Z with (Z.of_nat i + 1)%Z by lia.
  replace (Z.of_nat i + 1 - Z.of_nat 1)%Z with (Z.of_nat i) by lia.
  replace (Z.of_nat i + 1 - Z.of_nat 2)%Z with (Z.of_nat i - 1)%Z by lia.
  change (1 * 1)%Z with 1%Z. change (0 * 1)%Z with 0%Z.
  change (-1 * 1)%Z with (-1)%Z. lra.
Qed.

Lemma sobel_scalar (image : ndarray R) :
  ndim image = 0 → sobel image = Ok (mkarr [] [NaN]).
Proof.
  intros Hn. destruct image as [[|? ?] l]; [clear Hn|done].
  unfold sobel. cbn [ndim shape length range seq for_loop mbind result_bind].
  unfold amap, np_zeros. cbn [shape data size foldr replicate map].
  do 3 f_equal.
  rewrite !np_sqrt_nonneg by (simpl; lra). simpl INR. rewrite sqrt_0.
  unfold np_divide. by destruct (Req_dec_T 0 0).
Qed.

(** ** The store-level run agrees with the value-level one *)

Lemma st_bind_ok {A B} (m : ST A) (k : A → ST B) h a h' :
  m h = Ok (a, h') → (m ≫= k) h = k a h'.
Proof. intros H. unfold mbind, st_bind. by rewrite H. Qed.

Lemma bind_Ok_inv {A B} (m : result A) (k : A → result B) b :
  (m ≫= k) = Ok b → ∃ a, m = Ok a ∧ k a = Ok b.
Proof. destruct m as [a|e]; simpl; [eauto|done]. Qed.

Lemma lift_ok {A} (r : result A) a h : r = Ok a → lift r h = Ok (a, h).
Proof. by intros ->. Qed.

Lemma read_int_ok h l a : h !! l = Some (IntArr a) → read_int l h = Ok (a, h).
Proof. intros H. unfold read_int. by rewrite H. Qed.

Lemma read_real_ok h l a : h !! l = Some (RealArr a) → read_real l h = Ok (a, h).
Proof. intros H. unfold read_real. by rewrite H. Qed.

Lemma read_float_ok h l a :
  h !! l = Some (FloatArr a) → read_float l h = Ok (a, h).
Proof. intros H. unfold read_float. by rewrite H. Qed.

Lemma lookup_alloc (h : heap) o : (h ++ [o]) !! length h = Some o.
Proof. by rewrite lookup_app_r, Nat.sub_diag by lia. Qed.

Lemma lookup_grow (h ext : heap) l o :
  h !! l = Some o → (h ++ ext) !! l = Some o.
Proof. apply lookup_app_l_Some. Qed.

Lemma reshape_st_ok h l a s r :
  h !! l = Some (IntArr a) → reshape a s = Ok r →
  reshape_st l s h = Ok (length h, h ++ [IntArr r]).
Proof.
  intros Hl Hr. unfold reshape_st.
  rewrite (st_bind_ok _ _ _ _ _ (read_int_ok _ _ _ Hl)).
  by rewrite (st_bind_ok _ _ _ _ _ (lift_ok _ _ _ Hr)).
Qed.

Lemma multiply_st_ok h l1 l2 a b r :
  h !! l1 = Some (IntArr a) → h !! l2 = Some (IntArr b) →
  np_multiply a b = Ok r →
  multiply_st l1 l2 h = Ok (length h, h ++ [IntArr r]).
Proof.
  intros H1 H2 Hr. unfold multiply_st.
  rewrite (st_bind_ok _ _ _ _ _ (read_int_ok _ _ _ H1)).
  rewrite (st_bind_ok _ _ _ _ _ (read_int_ok _ _ _ H2)).
  by rewrite (st_bind_ok _ _ _ _ _ (lift_ok _ _ _ Hr)).
Qed.

Lemma convolve_st_ok h image kernel a k r :
  h !! image = Some (RealArr a) → h !! kernel = Some (IntArr k) →
  convolve a k = Ok r →
  convolve_st image kernel h = Ok (length h, h ++ [RealArr r]).
Proof.
  intros H1 H2 Hr. unfold convolve_st.
  rewrite (st_bind_ok _ _ _ _ _ (read_real_ok _ _ _ H1)).
  rewrite (st_bind_ok _ _ _ _ _ (read_int_ok _ _ _ H2)).
  by rewrite (st_bind_ok _ _ _ _ _ (lift_ok _ _ _ Hr)).
Qed.

Lemma square_st_ok h l a :
  h !! l = Some (RealArr a) →
  square_st l h = Ok (length h, h ++ [RealArr (np_square a)]).
Proof.
  intros H1. unfold square_st.
  by rewrite (st_bind_ok _ _ _ _ _ (read_real_ok _ _ _ H1)).
Qed.

Lemma iadd_st_ok h l1 l2 a b r :
  h !! l1 = Some (RealArr a) → h !! l2 = Some (RealArr b) →
  np_iadd a b = Ok r →
  iadd_st l1 l2 h = Ok (tt, <[l1 := RealArr r]> h).
Proof.
  intros H1 H2 Hr. unfold iadd_st.
  rewrite (st_bind_ok _ _ _ _ _ (read_real_ok _ _ _ H1)).
  rewrite (st_bind_ok _ _ _ _ _ (read_real_ok _ _ _ H2)).
  by rewrite (st_bind_ok _ _ _ _ _ (lift_ok _ _ _ Hr)).
Qed.

Lemma sqrt_st_ok h l a :
  h !! l = Some (RealArr a) →
  sqrt_st l h = Ok (length h, h ++ [FloatArr (amap np_sqrt a)]).
Proof.
  intros H1. unfold sqrt_st.
  by rewrite (st_bind_ok _ _ _ _ _ (read_real_ok _ _ _ H1)).
Qed.

Lemma divide_st_ok h l a y :
  h !! l = Some (FloatArr a) →
  divide_st l y h
  = Ok (length h, h ++ [FloatArr (amap (fun x => np_divide x y) a)]).
Proof.
  intros H1. unfold divide_st.
  by rewrite (st_bind_ok _ _ _ _ _ (read_float_ok _ _ _ H1)).
Qed.

Section kernel_sim.
Context (n d e s : nat).

Lemma kernel_loop_sim xs h l k K :
  h !! s = Some (IntArr smooth) → h !! l = Some (IntArr k) →
  for_loop xs
    (fun kernel smooth_dim =>
       if smooth_dim =? d then Ok kernel
       else
         ss ← kernel_shape n smooth_dim;
         sm ← reshape smooth ss;
         np_multiply kernel sm) k = Ok K →
  ∃ l' ext,
    st_for xs
      (fun kernel smooth_dim =>
         if smooth_dim =? d then mret kernel
         else
           ss ← lift (kernel_shape n smooth_dim);
           sm ← reshape_st s ss;
           multiply_st kernel sm) l h = Ok (l', h ++ ext)
    ∧ (h ++ ext) !! l' = Some (IntArr K).
Proof.
  revert h l k. induction xs as [|x xs IH]; intros h l k Hs Hl Hloop.
  - simpl in Hloop. injection Hloop as <-. exists l, [].
    by rewrite app_nil_r.
  - cbn [for_loop] in Hloop.
    apply bind_Ok_inv in Hloop as (k' & Hbody & Hloop).
    cbn [st_for]. destruct (x =? d).
    + injection Hbody as <-.
      rewrite (st_bind_ok _ _ h l h) by done. by eapply IH.
    + apply bind_Ok_inv in Hbody as (ss & Hss & Hbody).
      apply bind_Ok_inv in Hbody as (sm & Hsm & Hmul).
      set (h1 := h ++ [IntArr sm]). set (h2 := h1 ++ [IntArr k']).
      destruct (IH h2 (length h1) k') as (l' & ext & Hrun & Hl').
      { by do 2 apply lookup_grow. }
      { apply lookup_alloc. }
      { done. }
      exists l', ([IntArr sm; IntArr k'] ++ ext). split.
      * erewrite st_bind_ok; [|].
        2:{ erewrite st_bind_ok by (by apply lift_ok).
            erewrite st_bind_ok by (by eapply reshape_st_ok).
            eapply multiply_st_ok; [by apply lookup_grow|apply lookup_alloc|done]. }
        fold h1 h2. rewrite Hrun. f_equal. f_equal.
        unfold h2, h1. by rewrite <- !app_assoc.
      * rewrite <- Hl'. f_equal. unfold h2, h1. by rewrite <- !app_assoc.
Qed.

Lemma sobel_kernel_sim h K :
  h !! e = Some (IntArr edge) → h !! s = Some (IntArr smooth) →
  sobel_kernel n d = Ok K →
  ∃ l ext, sobel_kernel_st e s n d h = Ok (l, h ++ ext)
           ∧ (h ++ ext) !! l = Some (IntArr K).
Proof.
  intros He Hs HK. unfold sobel_kernel in HK.
  apply bind_Ok_inv in HK as (ks & Hks & HK).
  apply bind_Ok_inv in HK as (k0 & Hk0 & Hloop).
  destruct (kernel_loop_sim (range n) (h ++ [IntArr k0]) (length h) k0 K)
    as (l & ext & Hrun & Hl); [by apply lookup_grow|apply lookup_alloc|done|].
  exists l, ([IntArr k0] ++ ext). unfold sobel_kernel_st.
  erewrite st_bind_ok by (by apply lift_ok).
  erewrite st_bind_ok by (by eapply reshape_st_ok).
  rewrite Hrun, <- !app_assoc. split; [done|].
  by rewrite <- app_assoc in Hl.
Qed.
End kernel_sim.

Section edge_sim.
Context (image e s out : nat) (img : ndarray R).
Context (Hie : out ≠ image) (Hee : out ≠ e) (Hse : out ≠ s).

Lemma edge_body_sim h acc acc' d :
  h !! image = Some (RealArr img) →
  h !! e = Some (IntArr edge) → h !! s = Some (IntArr smooth) →
  h !! out = Some (RealArr acc) →
  (kernel ← sobel_kernel (ndim img) d;
   conv ← convolve img kernel;
   np_iadd acc (np_square conv)) = Ok acc' →
  ∃ h',
    (kernel ← sobel_kernel_st e s (ndim img) d;
     conv ← convolve_st image kernel;
     sq ← square_st conv;
     iadd_st out sq) h = Ok (tt, h')
    ∧ length h ≤ length h'
    ∧ (∀ l o, l ≠ out → h !! l = Some o → h' !! l = Some o)
    ∧ h' !! out = Some (RealArr acc').
Proof.
  intros Hi He Hs Ho Hpure.
  apply bind_Ok_inv in Hpure as (K & HK & Hpure).
  apply bind_Ok_inv in Hpure as (conv & Hconv & Hadd).
  destruct (sobel_kernel_sim (ndim img) d e s h K He Hs HK)
    as (kl & ext & Hrun & Hkl).
  set (h1 := h ++ ext) in *.
  set (h2 := h1 ++ [RealArr conv]).
  set (h3 := h2 ++ [RealArr (np_square conv)]).
  assert (out < length h3) as Hlt.
  { apply lookup_lt_Some in Ho. unfold h3, h2, h1. rewrite !length_app. lia. }
  exists (<[out := RealArr acc']> h3). split; [|split; [|split]].
  - erewrite st_bind_ok by exact Hrun.
    erewrite st_bind_ok
      by (eapply convolve_st_ok; [by apply lookup_grow|done|done]).
    erewrite st_bind_ok by (apply square_st_ok, lookup_alloc).
    eapply iadd_st_ok; [|apply lookup_alloc|done].
    by do 3 apply lookup_grow.
  - rewrite length_insert. unfold h3, h2, h1. rewrite !length_app. lia.
  - intros l o Hl Hlo. rewrite list_lookup_insert_ne by done.
    by do 3 apply lookup_grow.
  - by apply list_lookup_insert_eq.
Qed.

Lemma edge_loop_sim xs h acc final :
  h !! image = Some (RealArr img) →
  h !! e = Some (IntArr edge) → h !! s = Some (IntArr smooth) →
  h !! out = Some (RealArr acc) →
  for_loop xs
    (fun output edge_dim =>
       kernel ← sobel_kernel (ndim img) edge_dim;
       conv ← convolve img kernel;
       np_iadd output (np_square conv)) acc = Ok final →
  ∃ h',
    st_for xs
      (fun _ edge_dim =>
         kernel ← sobel_kernel_st e s (ndim img) edge_dim;
         conv ← convolve_st image kernel;
         sq ← square_st conv;
         iadd_st out sq) tt h = Ok (tt, h')
    ∧ length h ≤ length h'
    ∧ (∀ l o, l ≠ out → h !! l = Some o → h' !! l = Some o)
    ∧ h' !! out = Some (RealArr final).
Proof.
  revert h acc. induction xs as [|x xs IH]; intros h acc Hi He Hs Ho Hloop.
  - simpl in Hloop. injection Hloop as <-. exists h. by repeat split.
  - cbn [for_loop] in Hloop.
    apply bind_Ok_inv in Hloop as (acc' & Hbody & Hloop).
    destruct (edge_body_sim h acc acc' x Hi He Hs Ho Hbody)
      as (h1 & Hrun1 & Hlen1 & Hkeep1 & Hout1).
    destruct (IH h1 acc') as (h2 & Hrun2 & Hlen2 & Hkeep2 & Hout2);
      [by apply Hkeep1..|done|done|].
    exists h2. split; [|split; [lia|split; [|done]]].
    + cbn [st_for]. by erewrite st_bind_ok by exact Hrun1.
    + intros l o Hl Hlo. by apply Hkeep2, Hkeep1.
Qed.
End edge_sim.

Lemma sobel_st_sim (h : heap) (image : nat) (img : ndarray R) res :
  h !! image = Some (RealArr img) → sobel img = Ok res →
  ∃ out h',
    sobel_st image h = Ok (out, h')
    ∧ (∀ l o, h !! l = Some o → h' !! l = Some o)
    ∧ h !! out = None
    ∧ h' !! out = Some (FloatArr res).
Proof.
  intros Hi Hres. unfold sobel in Hres. cbv zeta in Hres.
  apply bind_Ok_inv in Hres as (final & Hloop & Hres). injection Hres as <-.
  set (h1 := h ++ [IntArr edge]).
  set (h2 := h1 ++ [IntArr smooth]).
  set (h3 := h2 ++ [RealArr (np_zeros (shape img))]).
  assert (length h1 = S (length h)) as Hl1
    by (unfold h1; rewrite length_app; simpl; lia).
  assert (length h2 = S (S (length h))) as Hl2
    by (unfold h2; rewrite length_app; simpl; lia).
  assert (image < length h) as Hlt by (by eapply lookup_lt_Some).
  destruct (edge_loop_sim image (length h) (length h1) (length h2) img
              ltac:(lia) ltac:(lia) ltac:(lia)
              (range (ndim img)) h3 (np_zeros (shape img)) final)
    as (h4 & Hrun & Hlen & Hkeep & Hout).
  { by do 3 apply lookup_grow. }
  { do 2 apply lookup_grow. apply lookup_alloc. }
  { apply lookup_grow. apply lookup_alloc. }
  { apply lookup_alloc. }
  { done. }
  set (root := amap np_sqrt final).
  set (h5 := h4 ++ [FloatArr root]).
  exists (length h5), (h5 ++ [FloatArr (amap (fun x => np_divide x (np_sqrt (INR (ndim img)))) root)]).
  split; [|split; [|split]].
  - unfold sobel_st.
    erewrite st_bind_ok by (by apply read_real_ok). cbv zeta.
    erewrite st_bind_ok by reflexivity.
    erewrite st_bind_ok by reflexivity.
    erewrite st_bind_ok by reflexivity.
    erewrite st_bind_ok by exact Hrun.
    erewrite st_bind_ok by (by apply sqrt_st_ok).
    apply divide_st_ok, lookup_alloc.
  - intros l o Hlo. do 2 apply lookup_grow. apply Hkeep.
    + apply lookup_lt_Some in Hlo. lia.
    + by do 3 apply lookup_grow.
  - apply lookup_ge_None. unfold h5. rewrite length_app.
    unfold h3 in Hlen. rewrite length_app in Hlen. simpl in *. lia.
  - rewrite lookup_alloc. do 2 f_equal.
    unfold root, amap; simpl. by rewrite map_map.
Qed.

(** ** The float64 run *)

Lemma np_zeros_f64_tabulate s : np_zeros_f64 s = tabulate s (fun _ => f64_zero).
Proof.
  unfold np_zeros_f64, tabulate. f_equal.
  rewrite <- length_indices. induction (indices s) as [|i l IH]; simpl; [done|].
  by rewrite IH.
Qed.

Lemma np_iadd_f64_tabulate s (f g : list nat → float64) :
  np_iadd_f64 (tabulate s f) (tabulate s g)
  = Ok (tabulate s (fun idx => f64_add (f idx) (g idx))).
Proof.
  unfold np_iadd_f64, broadcast_op. simpl.
  rewrite broadcast_shapes_ok, zip_with_bdim_same
    by (apply Forall_Forall2_diag, Forall_forall; auto).
  simpl. rewrite decide_True by done. f_equal.
  apply tabulate_ext. intros idx Hb.
  by rewrite broadcast_index_id, !get_tabulate.
Qed.

(** The loop over the edge axes keeps an array of the image's shape and
    never raises. *)
Lemma sobel_f64_loop (image : ndarray float64) dims G :
  Forall (fun d => d < ndim image) dims →
  ∃ G',
    for_loop dims
      (fun output edge_dim =>
         kernel ← sobel_kernel (ndim image) edge_dim;
         conv ← convolve_f64 image kernel;
         np_iadd_f64 output (np_square_f64 conv))
      (tabulate (shape image) G)
    = Ok (tabulate (shape image) G').
Proof.
  intros Hd. revert G.
  induction Hd as [|d dims Hlt _ IH]; intros G; cbn [for_loop].
  - by exists G.
  - rewrite sobel_kernel_ok by done. cbn [mbind result_bind].
    unfold convolve_f64. cbn [shape tabulate].
    rewrite filter_pos_replicate_3, length_replicate, Nat.eqb_refl.
    cbn [mbind result_bind]. unfold np_square_f64.
    rewrite amap_tabulate, np_iadd_f64_tabulate. cbn [mbind result_bind].
    apply IH.
Qed.

(** [sobel_f64] returns for every image: an array of the image's shape whose
    samples are a square root divided by the square root of [ndim]. *)
Lemma sobel_f64_ok (image : ndarray float64) :
  ∃ G,
    sobel_f64 image
    = Ok (tabulate (shape image) (fun idx =>
            f64_div (f64_sqrt (G idx))
              (f64_sqrt (f64_of_Z (Z.of_nat (ndim image)))))).
Proof.
  unfold sobel_f64. cbv zeta. rewrite np_zeros_f64_tabulate.
  destruct (sobel_f64_loop image (range (ndim image)) (fun _ => f64_zero))
    as [G HG].
  { apply Forall_forall. intros d Hd%list_elem_of_In%in_seq. lia. }
  exists G. rewrite HG. cbn [mbind result_bind]. by rewrite amap_tabulate.
Qed.

(** Rounding keeps the sign it is given. *)
Lemma binary_round_aux_sign s m e l :
  match SpecFloat.binary_round_aux 53 1024 s m e l with
  | SpecFloat.S754_zero s' | SpecFloat.S754_infinity s'
  | SpecFloat.S754_finite s' _ _ => s' = s
  | SpecFloat.S754_nan => True
  end.
Proof.
  unfold SpecFloat.binary_round_aux.
  destruct (SpecFloat.shr_fexp 53 1024 m e l) as [mrs e'].
  destruct (SpecFloat.shr_fexp 53 1024 _ e' SpecFloat.loc_Exact) as [mrs' e''].
  destruct (SpecFloat.shr_m mrs'); [done| |done].
  by destruct (_ <=? _)%Z.
Qed.

Lemma f64_sqrt_no_negative x : f64_no_negative (f64_sqrt x).
Proof.
  destruct x as [s|[|]| |[|] m e]; try done. cbn.
  destruct (SpecFloat.SFsqrt_core_binary 53 1024 (Z.pos m) e) as [[mz ez] lz].
  pose proof (binary_round_aux_sign false mz ez lz) as H.
  by destruct (SpecFloat.binary_round_aux 53 1024 false mz ez lz).
Qed.

Lemma f64_of_nat_positive_sign n : f64_positive_sign (f64_of_Z (Z.of_nat n)).
Proof.
  unfold f64_of_Z, SpecFloat.binary_normalize.
  destruct (Z.of_nat n) as [|p|p] eqn:E; [done| |lia].
  unfold SpecFloat.binary_round.
  destruct (SpecFloat.shl_align _ _ _) as [mz ez].
  pose proof (binary_round_aux_sign false (Z.pos mz) ez SpecFloat.loc_Exact) as H.
  by destruct (SpecFloat.binary_round_aux 53 1024 false _ ez _).
Qed.

Lemma f64_sqrt_positive_sign x : f64_positive_sign x → f64_positive_sign (f64_sqrt x).
Proof.
  destruct x as [s|[|]| |[|] m e]; try done. intros _. cbn.
  destruct (SpecFloat.SFsqrt_core_binary 53 1024 (Z.pos m) e) as [[mz ez] lz].
  pose proof (binary_round_aux_sign false mz ez lz) as H.
  by destruct (SpecFloat.binary_round_aux 53 1024 false mz ez lz).
Qed.

Lemma f64_div_no_negative x y :
  f64_no_negative x → f64_positive_sign y → f64_no_negative (f64_div x y).
Proof.
  destruct x as [sx|sx| |sx mx ex], y as [sy|sy| |sy my ey]; cbn;
    try done; try (by intros -> ->); try (by intros _ ->).
  intros -> ->.
  destruct (SpecFloat.SFdiv_core_binary 53 1024 _ ex _ ey) as [[mz ez] lz].
  pose proof (binary_round_aux_sign (xorb false false) mz ez lz) as H.
  by destruct (SpecFloat.binary_round_aux 53 1024 _ mz ez lz).
Qed.

Lemma f64_no_negative_nonneg x :
  f64_no_negative x → x = SpecFloat.S754_nan ∨ f64_nonneg x.
Proof.
  destruct x as [s|[|]| |[|] m e]; cbn; try done; intros _;
    (by left) || (by right).
Qed.

(** ** The functions on small inputs *)

Example kernel_shape_3_1 : kernel_shape 3 1 = Ok [1; 3; 1].
Proof. reflexivity. Qed.

Example kernel_shape_out_of_range : kernel_shape 2 2 = Raise IndexError.
Proof. reflexivity. Qed.

Example sobel_kernel_rows :
  sobel_kernel 2 0 = Ok (mkarr [3; 3] [1; 2; 1; 0; 0; 0; -1; -2; -1]%Z).
Proof. reflexivity. Qed.

Example sobel_kernel_columns :
  sobel_kernel 2 1 = Ok (mkarr [3; 3] [1; 0; -1; 2; 0; -2; 1; 0; -1]%Z).
Proof. reflexivity. Qed.

Example extend_reflect_line :
  map (extend_reflect 4) [-2; -1; 0; 3; 4; 5]%Z = [1; 0; 0; 3; 3; 2].
Proof. reflexivity. Qed.

Example convolve_line :
  convolve (mkarr [3] [1; 2; 4]%R) edge = Ok (mkarr [3] [1; 3; 2]%R).
Proof.
  unfold convolve, tabulate, Rsum. cbn -[IZR extend_reflect].
  repeat match goal with
         | |- context [extend_reflect ?n ?c] =>
             let v := eval vm_compute in (extend_reflect n c) in
             change (extend_reflect n c) with v
         end.
  cbn -[IZR]. do 2 f_equal.
  f_equal; [lra|]. f_equal; [lra|]. f_equal. lra.
Qed.

Example sobel_line :
  sobel (mkarr [3] [1; 2; 4]%R) = Ok (mkarr [3] [Fin 1; Fin 3; Fin 2]).
Proof.
  rewrite sobel_ref by (vm_compute; lia). unfold ref_sobel, tabulate.
  cbn [shape ndim length indices seq flat_map map app Rsum foldr].
  rewrite !ref_convolve_1d, INR_1, sqrt_1.
  repeat match goal with
         | |- context [mirror_coord ?n ?c] =>
             let v := eval vm_compute in (mirror_coord n c) in
             change (mirror_coord n c) with v
         end.
  unfold get. cbn [shape data ravel size foldr nth Nat.mul Nat.add].
  do 2 f_equal.
  assert (∀ x y : R, (0 <= y)%R → (x = y ∨ x = - y)%R → (sqrt (x ^ 2 + 0) / 1 = y)%R) as Hs.
  { intros x y Hy Hx. rewrite Rplus_0_r, <- Rsqr_pow2, sqrt_Rsqr_abs.
    unfold Rdiv. rewrite Rinv_1, Rmult_1_r.
    destruct Hx as [->| ->]; [by apply Rabs_right, Rle_ge|].
    rewrite Rabs_Ropp. by apply Rabs_right, Rle_ge. }
  f_equal; [f_equal; apply Hs; lra|].
  f_equal; [f_equal; apply Hs; lra|].
  do 2 f_equal. apply Hs; lra.
Qed.

Example float64_samples_valid :
  Forall (fun x => SpecFloat.valid_binary 53 1024 x = true)
    [f64_zero; f64_of_Z 1; f64_tenth; f64_pow2 53; f64_pow2 600;
     f64_pow2 (-600); f64_pow2 1023].
Proof. repeat constructor. Qed.

Example footprint_rows :
  footprint (mkarr [3; 3] [1; 2; 1; 0; 0; 0; -1; -2; -1]%Z)
  = [[2; 2]; [2; 1]; [2; 0]; [0; 2]; [0; 1]; [0; 0]].
Proof. reflexivity. Qed.

Example sobel_f64_line :
  sobel_f64 (mkarr [3] [f64_of_Z 1; f64_of_Z 2; f64_of_Z 4])
  = Ok (mkarr [3] [f64_of_Z 1; f64_of_Z 3; f64_of_Z 2]).
Proof. by vm_compute. Qed.

Example sobel_f64_scalar :
  sobel_f64 (mkarr [] [f64_of_Z 5]) = Ok (mkarr [] [SpecFloat.S754_nan]).
Proof. by vm_compute. Qed.

(** * The stated properties *)

(** [sobel] raises for no input. *)
Lemma sobel_total (image : ndarray R) : ∃ out, sobel image = Ok out.
Proof.
  destruct (decide (ndim image = 0)) as [H0|H0].
  - eexists. by apply sobel_scalar.
  - eexists. apply sobel_ref. lia.
Qed.




(** C2, as the code has it: for a zero-dimensional input the loop over the
    axes runs no iteration and [sobel] raises nothing; it returns the
    zero-dimensional array holding [sqrt(0) / sqrt(0)], which is
    not-a-number. *)
Theorem sobel_scalar_is_nan (image : ndarray R) :
  ndim image = 0 → sobel image = Ok (mkarr [] [NaN]).
Proof.
  intros Hn. destruct image as [[|? ?] l]; [clear Hn|done].
  unfold sobel. cbn [ndim shape length range seq for_loop mbind result_bind].
  unfold amap, np_zeros. cbn [shape data size foldr replicate map].
  do 3 f_equal.
  rewrite !np_sqrt_nonneg by (simpl; lra). simpl INR. rewrite sqrt_0.
  unfold np_divide. by destruct (Req_dec_T 0 0).
Qed.

Lemma sobel_scalar_is_nan_witness :
  ndim (mkarr [] [5%R]) = 0 ∧ sobel (mkarr [] [5%R]) = Ok (mkarr [] [NaN]).
Proof.
  split; [reflexivity|].
  apply (sobel_scalar_is_nan (mkarr [] [5%R])). reflexivity.
Defined.

(** C2, as stated, fails: on the scalar array [5.0] the call returns a
    value, it does not fail with an error. *)
Lemma sobel_scalar_no_error :
  sobel (mkarr [] [5%R]) = Ok (mkarr [] [NaN])
  ∧ ¬ ∃ e, sobel (mkarr [] [5%R]) = Raise e.
Proof.
  split; [by apply sobel_scalar|].
  intros [e He]. by rewrite sobel_scalar in He.
Qed.

(** C3: for every input with at least one axis, the array [sobel] returns
    has the shape of the input (and as many samples as that shape asks). *)
Theorem sobel_preserves_shape (image : ndarray R) :
  1 ≤ ndim image →
  ∃ out, sobel image = Ok out ∧ shape out = shape image ∧ wf out.
Proof.
  intros Hn. exists (ref_sobel image). split; [by apply sobel_ref|].
  split; [done|apply wf_tabulate].
Qed.

Lemma sobel_preserves_shape_witness :
  1 ≤ ndim (mkarr [2; 3] [0; 1; 2; 3; 4; 5]%R)
  ∧ ∃ out, sobel (mkarr [2; 3] [0; 1; 2; 3; 4; 5]%R) = Ok out
           ∧ shape out = [2; 3] ∧ wf out.
Proof.
  split; [vm_compute; lia|].
  apply (sobel_preserves_shape (mkarr [2; 3] [0; 1; 2; 3; 4; 5]%R)).
  vm_compute. lia.
Defined.

(** C4, as the code has it on a float64 image: [sobel] returns, and every
    sample of the array it returns is not-a-number or a float64 that is not
    below zero: a zero, a positive number or [+inf].  No sample is
    negative. *)
Theorem sobel_f64_nonneg_or_nan (image : ndarray float64) :
  ∃ out, sobel_f64 image = Ok out
         ∧ Forall (fun x => x = SpecFloat.S754_nan ∨ f64_nonneg x) (data out).
Proof.
  destruct (sobel_f64_ok image) as [G HG]. eexists. split; [exact HG|].
  cbn [tabulate data]. apply Forall_forall. intros x Hx.
  apply list_elem_of_In, in_map_iff in Hx as (idx & <- & _).
  apply f64_no_negative_nonneg, f64_div_no_negative.
  - apply f64_sqrt_no_negative.
  - apply f64_sqrt_positive_sign, f64_of_nat_positive_sign.
Qed.

(** C4, as stated, fails on a float64 image: the samples need not be real
    numbers.  On the 2-D image whose four samples are [2^1023] the products
    by 2 overflow, the second pass adds [-inf] and [+inf], and every sample
    returned is not-a-number; on the line [[0, 2^600]] both samples returned
    are [+inf]. *)
Lemma sobel_f64_not_real :
  sobel_f64 (mkarr [2; 2] (replicate 4 (f64_pow2 1023)))
  = Ok (mkarr [2; 2] (replicate 4 SpecFloat.S754_nan))
  ∧ ¬ Forall nonneg_real (map f64_xreal (replicate 4 SpecFloat.S754_nan))
  ∧ sobel_f64 (mkarr [2] [f64_zero; f64_pow2 600])
    = Ok (mkarr [2] (replicate 2 (SpecFloat.S754_infinity false)))
  ∧ ¬ Forall nonneg_real
        (map f64_xreal (replicate 2 (SpecFloat.S754_infinity false))).
Proof.
  split; [by vm_compute|]. split.
  { cbn [replicate map f64_xreal]. by intros [[] _]%Forall_cons. }
  split; [by vm_compute|].
  cbn [replicate map f64_xreal]. by intros [[] _]%Forall_cons.
Qed.




(** C6, in exact real arithmetic: for every input and every axis [a] of it,
    [sobel] of the input flipped along [a] is [sobel] of the input, flipped
    along [a]. *)
Theorem sobel_flip_commute (image : ndarray R) (a : nat) :
  a < ndim image →
  ∃ out, sobel image = Ok out
         ∧ sobel (np_flip 0%R a image) = Ok (np_flip NaN a out).
Proof.
  intros Ha. exists (ref_sobel image).
  split; [apply sobel_ref; lia|].
  rewrite sobel_ref by (rewrite ndim_np_flip; lia). f_equal.
  unfold np_flip at 2. unfold ref_sobel at 1. simpl shape.
  apply tabulate_ext. intros idx Hb. rewrite ndim_np_flip.
  unfold ref_sobel. rewrite get_tabulate by (by apply flip_index_in_bounds).
  do 3 f_equal. apply Rsum_map_ext. intros d _.
  rewrite ref_convolve_flip by done.
  unfold flip_sign. case_match; simpl; lra.
Qed.

Lemma sobel_flip_commute_witness :
  1 < ndim (mkarr [2; 2] [0; 1; 3; 7]%R)
  ∧ ∃ out, sobel (mkarr [2; 2] [0; 1; 3; 7]%R) = Ok out
           ∧ sobel (np_flip 0%R 1 (mkarr [2; 2] [0; 1; 3; 7]%R))
             = Ok (np_flip NaN 1 out).
Proof.
  split; [vm_compute; lia|].
  apply (sobel_flip_commute (mkarr [2; 2] [0; 1; 3; 7]%R) 1). vm_compute. lia.
Defined.

(** C6, as stated, fails on a float64 image: a flip reverses the order in
    which the products of a convolution are added, and float64 addition is
    not associative.  On the image [[[1, 2^53]]] the call returns
    [6369051672525771 * 4] twice, on the image flipped along axis 1 it
    returns [6369051672525772 * 4] twice. *)
Lemma sobel_f64_flip_differs :
  sobel_f64 (mkarr [1; 2] [f64_of_Z 1; f64_pow2 53])
  = Ok (mkarr [1; 2] [SpecFloat.S754_finite false 6369051672525771 2;
                      SpecFloat.S754_finite false 6369051672525771 2])
  ∧ np_flip f64_zero 1 (mkarr [1; 2] [f64_of_Z 1; f64_pow2 53])
    = mkarr [1; 2] [f64_pow2 53; f64_of_Z 1]
  ∧ sobel_f64 (mkarr [1; 2] [f64_pow2 53; f64_of_Z 1])
    = Ok (mkarr [1; 2] [SpecFloat.S754_finite false 6369051672525772 2;
                        SpecFloat.S754_finite false 6369051672525772 2])
  ∧ mkarr [1; 2] [SpecFloat.S754_finite false 6369051672525772 2;
                  SpecFloat.S754_finite false 6369051672525772 2]
    ≠ np_flip f64_zero 1
        (mkarr [1; 2] [SpecFloat.S754_finite false 6369051672525771 2;
                       SpecFloat.S754_finite false 6369051672525771 2]).
Proof.
  split; [by vm_compute|]. split; [by vm_compute|]. split; [by vm_compute|].
  by vm_compute.
Qed.

(** C7, in exact real arithmetic: for every 2-D input all of whose samples
    are the same constant, [sobel] returns the all-zero array of the same
    shape. *)
Theorem sobel_constant_2d_zero (c : R) (image : ndarray R) :
  ndim image = 2 → constant c image →
  sobel image = Ok (mkarr (shape image) (replicate (size (shape image)) (Fin 0))).
Proof. intros Hn Hc. apply (sobel_constant c); [lia|done]. Qed.

Lemma sobel_constant_2d_zero_witness :
  ndim (mkarr [2; 2] [3; 3; 3; 3]%R) = 2
  ∧ constant 3 (mkarr [2; 2] [3; 3; 3; 3]%R)
  ∧ sobel (mkarr [2; 2] [3; 3; 3; 3]%R)
    = Ok (mkarr [2; 2] (replicate 4 (Fin 0))).
Proof.
  assert (constant 3 (mkarr [2; 2] [3; 3; 3; 3]%R)) as Hc.
  { split; [reflexivity|]. repeat constructor. }
  split; [reflexivity|]. split; [exact Hc|].
  apply (sobel_constant_2d_zero 3 (mkarr [2; 2] [3; 3; 3; 3]%R));
    [reflexivity|exact Hc].
Defined.

(** C7, as stated, fails on a float64 image: on the 2-D image whose four
    samples are the float64 nearest to 0.1, the pass along axis 0 adds
    [-c - 2c - c + c + 2c + c] one product after the other and is left with
    [-2^-55]; every sample returned is [6369051672525772 * 2^-108], about
    [1.96e-17], not zero. *)
Lemma sobel_f64_constant_residue :
  sobel_f64 (mkarr [2; 2] (replicate 4 f64_tenth))
  = Ok (mkarr [2; 2]
          (replicate 4 (SpecFloat.S754_finite false 6369051672525772 (-108))))
  ∧ mkarr [2; 2]
      (replicate 4 (SpecFloat.S754_finite false 6369051672525772 (-108)))
    ≠ np_zeros_f64 [2; 2].
Proof. split; by vm_compute. Qed.

(** C8: a call of [sobel] on the array object [image] leaves every object of
    the store as it was, the input among them, and returns a newly
    allocated object, distinct from the input, holding the value-level
    result. *)
Theorem sobel_st_pure (h : heap) (image : nat) (img : ndarray R) :
  h !! image = Some (RealArr img) →
  ∃ out h' res,
    sobel_st image h = Ok (out, h')
    ∧ sobel img = Ok res
    ∧ (∀ l o, h !! l = Some o → h' !! l = Some o)
    ∧ h' !! image = Some (RealArr img)
    ∧ h !! out = None
    ∧ out ≠ image
    ∧ h' !! out = Some (FloatArr res).
Proof.
  intros Hi. destruct (sobel_total img) as [res Hres].
  destruct (sobel_st_sim h image img res Hi Hres)
    as (out & h' & Hrun & Hkeep & Hfresh & Hout).
  exists out, h', res. repeat split; try done.
  - by apply Hkeep.
  - intros ->. by rewrite Hi in Hfresh.
Qed.

Lemma sobel_st_pure_witness :
  [RealArr (mkarr [2] [1; 4]%R)] !! 0 = Some (RealArr (mkarr [2] [1; 4]%R))
  ∧ ∃ out h' res,
      sobel_st 0 [RealArr (mkarr [2] [1; 4]%R)] = Ok (out, h')
      ∧ sobel (mkarr [2] [1; 4]%R) = Ok res
      ∧ (∀ l o, [RealArr (mkarr [2] [1; 4]%R)] !! l = Some o
                → h' !! l = Some o)
      ∧ h' !! 0 = Some (RealArr (mkarr [2] [1; 4]%R))
      ∧ [RealArr (mkarr [2] [1; 4]%R)] !! out = None
      ∧ out ≠ 0
      ∧ h' !! out = Some (FloatArr res).
Proof.
  split; [reflexivity|].
  apply (sobel_st_pure [RealArr (mkarr [2] [1; 4]%R)] 0 (mkarr [2] [1; 4]%R)).
  reflexivity.
Defined.

(** C9, in exact real arithmetic: for every input with an axis [d] of
    length 1, the convolution pass whose difference kernel lies along [d] is
    the all-zero array, so the axis adds nothing to the sum of squares:
    [output += conv ** 2] leaves [output] as it is. *)
Theorem sobel_unit_axis_zero_pass (image : ndarray R) (d : nat) :
  d < ndim image → nth d (shape image) 0 = 1 →
  ∃ kernel conv,
    sobel_kernel (ndim image) d = Ok kernel
    ∧ convolve image kernel = Ok conv
    ∧ conv = np_zeros (shape image)
    ∧ ∀ output, wf output → shape output = shape image →
                np_iadd output (np_square conv) = Ok output.
Proof.
  intros Hd H1. eexists _, (np_zeros (shape image)).
  split; [by apply sobel_kernel_ok|]. split; [|split; [done|]].
  - rewrite convolve_ok, np_zeros_tabulate. f_equal.
    apply tabulate_ext. intros idx Hb. by apply ref_convolve_unit_axis.
  - intros output Hwf Hs.
    pose proof (tabulate_get 0%R output Hwf) as E. rewrite Hs in E.
    rewrite <- E. unfold np_square.
    rewrite np_zeros_tabulate, amap_tabulate, np_iadd_tabulate. f_equal.
    apply tabulate_ext. intros idx _. lra.
Qed.

Lemma sobel_unit_axis_zero_pass_witness :
  0 < ndim (mkarr [1; 3] [2; 5; 9]%R)
  ∧ nth 0 (shape (mkarr [1; 3] [2; 5; 9]%R)) 0 = 1
  ∧ ∃ kernel conv,
      sobel_kernel 2 0 = Ok kernel
      ∧ convolve (mkarr [1; 3] [2; 5; 9]%R) kernel = Ok conv
      ∧ conv = np_zeros [1; 3]
      ∧ ∀ output, wf output → shape output = [1; 3] →
                  np_iadd output (np_square conv) = Ok output.
Proof.
  split; [vm_compute; lia|]. split; [reflexivity|].
  apply (sobel_unit_axis_zero_pass (mkarr [1; 3] [2; 5; 9]%R) 0);
    [vm_compute; lia|reflexivity].
Defined.

(** C9, as stated, fails on a float64 image: on the image
    [[[0.1, 0.1, 0.1]]], whose axis 0 has length 1, the pass along axis 0
    is [-2^-55] at every sample, not zero, and [output += conv ** 2] turns
    the zeros of [output] into [2^-110]. *)
Lemma convolve_f64_unit_axis_residue :
  sobel_kernel 2 0 = Ok (mkarr [3; 3] [1; 2; 1; 0; 0; 0; -1; -2; -1]%Z)
  ∧ convolve_f64 (mkarr [1; 3] (replicate 3 f64_tenth))
      (mkarr [3; 3] [1; 2; 1; 0; 0; 0; -1; -2; -1]%Z)
    = Ok (mkarr [1; 3]
            (replicate 3 (SpecFloat.S754_finite true 4503599627370496 (-107))))
  ∧ np_iadd_f64 (np_zeros_f64 [1; 3])
      (np_square_f64
         (mkarr [1; 3]
            (replicate 3 (SpecFloat.S754_finite true 4503599627370496 (-107)))))
    = Ok (mkarr [1; 3] (replicate 3 (f64_pow2 (-110))))
  ∧ mkarr [1; 3] (replicate 3 (f64_pow2 (-110))) ≠ np_zeros_f64 [1; 3].
Proof.
  split; [by vm_compute|]. split; [by vm_compute|]. split; [by vm_compute|].
  by vm_compute.
Qed.

(** C10: for every input with at least one axis and every real [c],
    [sobel (c * image)] is [|c| * sobel image], in exact real arithmetic. *)
Theorem sobel_abs_homogeneous (c : R) (image : ndarray R) :
  1 ≤ ndim image →
  ∃ out, sobel image = Ok out
         ∧ sobel (np_scale c image) = Ok (amap (x_mul (Fin (Rabs c))) out).
Proof.
  intros Hn. exists (ref_sobel image). split; [by apply sobel_ref|].
  rewrite sobel_ref by done. f_equal.
  unfold ref_sobel. rewrite amap_tabulate.
  change (ndim (np_scale c image)) with (ndim image).
  change (shape (np_scale c image)) with (shape image).
  apply tabulate_ext. intros idx _. cbn [x_mul]. f_equal.
  set (S := Rsum (map (fun d => (ref_convolve image d idx ^ 2)%R)
                       (seq 0 (ndim image)))).
  replace (Rsum _) with (c ^ 2 * S)%R.
  - assert (0 <= S)%R by apply Rsum_squares_nonneg.
    rewrite sqrt_mult by (done || apply pow2_ge_0).
    rewrite <- Rsqr_pow2, sqrt_Rsqr_abs. unfold Rdiv. lra.
  - unfold S. rewrite <- Rsum_scale. apply Rsum_map_ext. intros d _.
    rewrite ref_convolve_scale. lra.
Qed.

Lemma sobel_abs_homogeneous_witness :
  1 ≤ ndim (mkarr [2] [1; 4]%R)
  ∧ ∃ out, sobel (mkarr [2] [1; 4]%R) = Ok out
           ∧ sobel (np_scale (-2) (mkarr [2] [1; 4]%R))
             = Ok (amap (x_mul (Fin (Rabs (-2)))) out).
Proof.
  split; [vm_compute; lia|].
  apply (sobel_abs_homogeneous (-2) (mkarr [2] [1; 4]%R)). vm_compute. lia.
Defined.

(** * Further properties of the code *)

(** ** [kernel_shape] *)




(** X3: the shape [kernel_shape] returns has room for exactly three
    samples, so reshaping a 3-sample array to it never raises and keeps the
    samples in order. *)
Theorem kernel_shape_reshape (A : Type) (ndim dim : nat) (l : list A) :
  dim < ndim →
  ∃ ks, kernel_shape ndim dim = Ok ks
        ∧ size ks = 3
        ∧ reshape (mkarr [3] l) ks = Ok (mkarr ks l).
Proof.
  intros Hd. exists (<[dim:=3]> (replicate ndim 1)).
  split; [by apply kernel_shape_ok|]. split; [by apply size_oriented|].
  unfold reshape. by rewrite size_oriented.
Qed.

Lemma kernel_shape_reshape_witness :
  0 < 2
  ∧ ∃ ks, kernel_shape 2 0 = Ok ks
          ∧ size ks = 3
          ∧ reshape (mkarr [3] [1; 0; -1]%Z) ks = Ok (mkarr ks [1; 0; -1]%Z).
Proof. split; [lia|]. apply (kernel_shape_reshape Z 2 0). lia. Defined.

(** ** The kernel of the inner loop *)

Lemma Zsum_app l1 l2 : Zsum (l1 ++ l2) = (Zsum l1 + Zsum l2)%Z.
Proof. unfold Zsum. induction l1 as [|x l1 IH]; simpl; [|rewrite IH]; lia. Qed.

Lemma Zsum_scale (c : Z) {A} (f : A → Z) l :
  Zsum (map (fun x => (c * f x)%Z) l) = (c * Zsum (map f l))%Z.
Proof. unfold Zsum. induction l as [|x l IH]; simpl; [|rewrite IH]; lia. Qed.

Lemma Zprod_map_S (g : nat → Z) (a n : nat) :
  Zprod (map g (seq (S a) n)) = Zprod (map (fun s => g (S s)) (seq a n)).
Proof. by rewrite <- seq_shift, map_map. Qed.

(** A sum over all offsets of a product of per-axis factors is the product
    of the per-axis sums. *)
Lemma Zsum_prod_indices (g : nat → nat → Z) (n : nat) :
  Zsum (map (fun k => Zprod (map (fun s => g s (nth s k 0)) (seq 0 n)))
            (indices (replicate n 3)))
  = Zprod (map (fun s => sum3 (g s)) (seq 0 n)).
Proof.
  revert g. induction n as [|n IH]; intros g; [done|].
  transitivity (sum3 (g 0%nat) * Zprod (map (fun s => sum3 (g (S s))) (seq 0 n)))%Z.
  2:{ by rewrite <- (Zprod_map_S (fun s => sum3 (g s))). }
  rewrite <- (IH (fun s => g (S s))).
  assert (∀ i, Zsum (map (fun k =>
              Zprod (map (fun s => g s (nth s k 0)) (seq 0 (S n))))
                         (map (cons i) (indices (replicate n 3))))
             = Z.mul (g 0 i) (Zsum (map (fun k =>
                   Zprod (map (fun s => g (S s) (nth s k 0)) (seq 0 n)))
                         (indices (replicate n 3))))) as Hi.
  { intros i. rewrite <- Zsum_scale, map_map. f_equal. apply map_ext. intros k.
    change (seq 0 (S n)) with (0 :: seq 1 n).
    cbn [map Zprod foldr nth]. f_equal.
    fold (Zprod (map (fun s => g s (nth s (i :: k) 0)) (seq 1 n))).
    by rewrite (Zprod_map_S (fun s => g s (nth s (i :: k) 0))). }
  change (indices (replicate (S n) 3))
    with (flat_map (fun i => map (cons i) (indices (replicate n 3))) [0; 1; 2]).
  cbn [flat_map]. rewrite app_nil_r, !map_app, !Zsum_app, !Hi.
  unfold sum3. lia.
Qed.

Lemma data_sobel_kernel n d kernel :
  sobel_kernel n d = Ok kernel →
  d < n ∧ kernel = tabulate (replicate n 3) (kernel_weight n d).
Proof.
  intros H. destruct (decide (d < n)) as [Hd|Hd].
  - split; [done|]. rewrite sobel_kernel_ok in H by done. by injection H.
  - unfold sobel_kernel in H. by rewrite kernel_shape_raise in H by lia.
Qed.

(** X5: for an edge axis below [ndim], the inner loop returns an array of
    shape [(3, ..., 3)] with one sample per offset, and the sample at
    offset [k] is the product over the axes of [edge[k_d]] on the edge axis
    and [smooth[k_s]] on every other axis. *)
Theorem sobel_kernel_separable (ndim edge_dim : nat) :
  edge_dim < ndim →
  ∃ kernel,
    sobel_kernel ndim edge_dim = Ok kernel
    ∧ shape kernel = replicate ndim 3
    ∧ length (data kernel) = 3 ^ ndim
    ∧ ∀ k, in_bounds (replicate ndim 3) k →
           get 0%Z kernel k = kernel_weight ndim edge_dim k.
Proof.
  intros Hd. eexists. split; [by apply sobel_kernel_ok|].
  split; [done|]. split.
  - cbn [tabulate data]. rewrite length_map, length_indices.
    clear. induction ndim as [|n IH]; [done|].
    cbn [replicate size foldr]. fold (size (replicate n 3)). rewrite IH.
    by rewrite Nat.pow_succ_r'.
  - intros k Hk. by apply get_tabulate.
Qed.

Lemma sobel_kernel_separable_witness :
  1 < 3
  ∧ ∃ kernel,
      sobel_kernel 3 1 = Ok kernel
      ∧ shape kernel = replicate 3 3
      ∧ length (data kernel) = 3 ^ 3
      ∧ ∀ k, in_bounds (replicate 3 3) k →
             get 0%Z kernel k = kernel_weight 3 1 k.
Proof. split; [lia|]. apply (sobel_kernel_separable 3 1). lia. Defined.

(** X6: the inner loop raises exactly when the edge axis is no axis,
    [edge_dim >= ndim], and then it is the [IndexError] of
    [kernel_shape]; the reshapes and the broadcast products never raise. *)
Theorem sobel_kernel_raises_iff (ndim edge_dim : nat) (e : exn) :
  sobel_kernel ndim edge_dim = Raise e ↔ ndim ≤ edge_dim ∧ e = IndexError.
Proof.
  destruct (decide (edge_dim < ndim)) as [Hd|Hd].
  - rewrite sobel_kernel_ok by done. split; [done|]. intros [? _]. lia.
  - unfold sobel_kernel. rewrite kernel_shape_raise by lia. cbn. split.
    + intros [= <-]. split; [lia|done].
    + by intros [_ ->].
Qed.

Lemma kernel_weight_sum n d :
  d < n → Zsum (map (kernel_weight n d) (indices (replicate n 3))) = 0%Z.
Proof.
  intros Hd. unfold kernel_weight.
  rewrite (Zsum_prod_indices
             (fun s j => if s =? d then edge_w j else smooth_w j)).
  rewrite (Zprod_seq_scale_one
             (fun s => if s =? d then 1%Z else sum3 smooth_w)
             _ 0%Z n d); [lia|done| |].
  - intros s Hs. by destruct (Nat.eqb_spec s d).
  - by rewrite Nat.eqb_refl.
Qed.

(** X7: the samples of every kernel the inner loop returns add up to 0. *)
Theorem sobel_kernel_sum_zero (ndim edge_dim : nat) (kernel : ndarray Z) :
  sobel_kernel ndim edge_dim = Ok kernel → Zsum (data kernel) = 0%Z.
Proof.
  intros H. apply data_sobel_kernel in H as [Hd ->].
  by apply kernel_weight_sum.
Qed.

Lemma sobel_kernel_sum_zero_witness :
  sobel_kernel 2 0 = Ok (mkarr [3; 3] [1; 2; 1; 0; 0; 0; -1; -2; -1]%Z)
  ∧ Zsum (data (mkarr [3; 3] [1; 2; 1; 0; 0; 0; -1; -2; -1]%Z)) = 0%Z.
Proof.
  split; [reflexivity|].
  apply (sobel_kernel_sum_zero 2 0). reflexivity.
Defined.

(** X8: reversing the offset along the edge axis negates the kernel's
    sample, reversing it along any other axis leaves the sample as it
    is. *)
Theorem sobel_kernel_flip (ndim edge_dim a : nat) (kernel : ndarray Z)
    (k : list nat) :
  sobel_kernel ndim edge_dim = Ok kernel →
  a < ndim → in_bounds (shape kernel) k →
  get 0%Z kernel (flip_index (shape kernel) a k)
  = if a =? edge_dim then Z.opp (get 0%Z kernel k) else get 0%Z kernel k.
Proof.
  intros H Ha Hk. apply data_sobel_kernel in H as [Hd ->].
  cbn [tabulate shape] in *.
  rewrite !get_tabulate by (done || by apply flip_index_in_bounds).
  rewrite kernel_weight_flip by done. unfold flip_sign.
  destruct (a =? edge_dim); lia.
Qed.

Lemma sobel_kernel_flip_witness :
  sobel_kernel 2 0 = Ok (mkarr [3; 3] [1; 2; 1; 0; 0; 0; -1; -2; -1]%Z)
  ∧ 0 < 2
  ∧ in_bounds [3; 3] [0; 1]
  ∧ get 0%Z (mkarr [3; 3] [1; 2; 1; 0; 0; 0; -1; -2; -1]%Z)
        (flip_index [3; 3] 0 [0; 1])
    = Z.opp (get 0%Z (mkarr [3; 3] [1; 2; 1; 0; 0; 0; -1; -2; -1]%Z) [0; 1]).
Proof.
  assert (in_bounds [3; 3] [0; 1]) as Hb by (repeat constructor; lia).
  split; [reflexivity|]. split; [lia|]. split; [exact Hb|].
  apply (sobel_kernel_flip 2 0 0
           (mkarr [3; 3] [1; 2; 1; 0; 0; 0; -1; -2; -1]%Z) [0; 1]);
    [reflexivity|lia|exact Hb].
Defined.

Lemma Zabs_Zprod l : Z.abs (Zprod l) = Zprod (map Z.abs l).
Proof.
  unfold Zprod. induction l as [|x l IH]; [done|].
  cbn [map foldr]. by rewrite Z.abs_mul, IH.
Qed.

Lemma kernel_weight_abs_sum n d :
  d < n →
  Zsum (map (fun k => Z.abs (kernel_weight n d k)) (indices (replicate n 3)))
  = Z.of_nat (2 * 4 ^ (n - 1)).
Proof.
  intros Hd.
  transitivity (Zsum (map (fun k => Zprod (map (fun s =>
      Z.abs (if s =? d then edge_w (nth s k 0)
             else smooth_w (nth s k 0))) (seq 0 n)))
                          (indices (replicate n 3)))).
  { f_equal. apply map_ext. intros k. unfold kernel_weight.
    by rewrite Zabs_Zprod, map_map. }
  rewrite (Zsum_prod_indices
             (fun s j => Z.abs (if s =? d then edge_w j else smooth_w j))).
  assert (∀ a m, Zprod (map (fun _ : nat => 4%Z) (seq a m)) = Z.of_nat (4 ^ m))
    as H4.
  { intros a m. unfold Zprod. revert a.
    induction m as [|m IH]; intros a; [done|].
    cbn [seq map foldr]. rewrite IH, Nat.pow_succ_r', Nat2Z.inj_mul. lia. }
  pose proof (Zprod_seq_scale_one
    (fun s => sum3 (fun j => Z.abs (if s =? d then edge_w j else smooth_w j)))
    (fun _ => 4%Z) 2%Z n d Hd) as Hs.
  rewrite H4 in Hs.
  destruct n as [|n]; [lia|]. replace (S n - 1) with n by lia.
  rewrite Nat.pow_succ_r' in Hs.
  assert (∀ x y : Z, (Z.of_nat (4 * 4 ^ n) = 2 * x)%Z →
                     y = Z.of_nat (2 * 4 ^ n) → x = y) as Hfin by lia.
  eapply Hfin; [|reflexivity]. apply Hs.
  - intros s Hs'. destruct (Nat.eqb_spec s d); [done|]. reflexivity.
  - by rewrite Nat.eqb_refl.
Qed.

(** X9: the absolute values of the kernel's samples add up to
    [2 * 4 ^ (ndim - 1)]. *)
Theorem sobel_kernel_abs_sum (ndim edge_dim : nat) (kernel : ndarray Z) :
  sobel_kernel ndim edge_dim = Ok kernel →
  Zsum (map Z.abs (data kernel)) = Z.of_nat (2 * 4 ^ (ndim - 1)).
Proof.
  intros H. apply data_sobel_kernel in H as [Hd ->]. cbn [tabulate data].
  rewrite map_map. by apply kernel_weight_abs_sum.
Qed.

Lemma sobel_kernel_abs_sum_witness :
  sobel_kernel 2 1 = Ok (mkarr [3; 3] [1; 0; -1; 2; 0; -2; 1; 0; -1]%Z)
  ∧ Zsum (map Z.abs (data (mkarr [3; 3] [1; 0; -1; 2; 0; -2; 1; 0; -1]%Z)))
    = Z.of_nat (2 * 4 ^ (2 - 1)).
Proof.
  split; [reflexivity|].
  apply (sobel_kernel_abs_sum 2 1). reflexivity.
Defined.

(** ** [sobel] *)

Lemma get_amap_in_bounds (f : R → R) image idx :
  wf image → in_bounds (shape image) idx →
  get 0%R (amap f image) idx = f (get 0%R image idx).
Proof.
  intros Hwf Hb. unfold get, amap. cbn [shape data].
  apply ravel_lt in Hb. rewrite <- Hwf in Hb.
  rewrite (nth_indep _ 0%R (f 0%R)) by (by rewrite length_map).
  apply map_nth.
Qed.

Lemma IZR_Zsum l : IZR (Zsum l) = Rsum (map IZR l).
Proof.
  unfold Zsum, Rsum. induction l as [|x l IH]; [done|].
  cbn [map foldr]. by rewrite plus_IZR, IH.
Qed.

Lemma Rsum_plus {A} (f g : A → R) l :
  Rsum (map (fun x => (f x + g x)%R) l)
  = (Rsum (map f l) + Rsum (map g l))%R.
Proof. unfold Rsum. induction l as [|x l IH]; simpl; [|rewrite IH]; lra. Qed.

Lemma Rsum_kernel_weight n d :
  d < n →
  Rsum (map (fun k => IZR (kernel_weight n d k)) (indices (replicate n 3)))
  = 0%R.
Proof.
  intros Hd. rewrite <- (map_map (kernel_weight n d) IZR), <- IZR_Zsum.
  by rewrite kernel_weight_sum.
Qed.

Lemma ref_convolve_offset c image d idx :
  wf image → d < ndim image → in_bounds (shape image) idx →
  ref_convolve (np_add_scalar c image) d idx = ref_convolve image d idx.
Proof.
  intros Hwf Hd Hb. unfold ref_convolve.
  change (ndim (np_add_scalar c image)) with (ndim image).
  change (shape (np_add_scalar c image)) with (shape image).
  transitivity (Rsum (map (fun k =>
      (IZR (kernel_weight (ndim image) d k)
       * get 0 image (mirror (shape image) idx k)
       + c * IZR (kernel_weight (ndim image) d k))%R)
    (indices (replicate (ndim image) 3)))).
  - apply Rsum_map_ext. intros k Hk. apply In_indices in Hk.
    unfold np_add_scalar.
    rewrite get_amap_in_bounds by (done || by apply mirror_in_bounds). lra.
  - rewrite Rsum_plus, Rsum_scale, Rsum_kernel_weight by done. lra.
Qed.

(** X11: in exact real arithmetic, adding the same number to every sample
    of an image with at least one axis does not change what [sobel]
    returns. *)
Theorem sobel_offset_invariant (c : R) (image : ndarray R) :
  1 ≤ ndim image → wf image →
  sobel (np_add_scalar c image) = sobel image.
Proof.
  intros Hn Hwf. rewrite !sobel_ref by done. f_equal.
  unfold ref_sobel.
  change (ndim (np_add_scalar c image)) with (ndim image).
  change (shape (np_add_scalar c image)) with (shape image).
  apply tabulate_ext. intros idx Hb. do 3 f_equal.
  apply Rsum_map_ext. intros d Hd. apply in_seq in Hd.
  rewrite ref_convolve_offset by (done || lia). done.
Qed.

Lemma sobel_offset_invariant_witness :
  1 ≤ ndim (mkarr [2; 2] [0; 1; 3; 7]%R)
  ∧ wf (mkarr [2; 2] [0; 1; 3; 7]%R)
  ∧ sobel (np_add_scalar 10 (mkarr [2; 2] [0; 1; 3; 7]%R))
    = sobel (mkarr [2; 2] [0; 1; 3; 7]%R).
Proof.
  split; [vm_compute; lia|]. split; [reflexivity|].
  apply (sobel_offset_invariant 10 (mkarr [2; 2] [0; 1; 3; 7]%R));
    [vm_compute; lia|reflexivity].
Defined.

(** X12: in exact real arithmetic, a constant image gives the all-zero
    array of the same shape in every dimension. *)
Theorem sobel_constant_zero (c : R) (image : ndarray R) :
  1 ≤ ndim image → constant c image →
  sobel image
  = Ok (mkarr (shape image) (replicate (size (shape image)) (Fin 0))).
Proof. apply sobel_constant. Qed.

Lemma sobel_constant_zero_witness :
  1 ≤ ndim (mkarr [2; 1; 2] [5; 5; 5; 5]%R)
  ∧ constant 5 (mkarr [2; 1; 2] [5; 5; 5; 5]%R)
  ∧ sobel (mkarr [2; 1; 2] [5; 5; 5; 5]%R)
    = Ok (mkarr [2; 1; 2] (replicate 4 (Fin 0))).
Proof.
  assert (constant 5 (mkarr [2; 1; 2] [5; 5; 5; 5]%R)) as Hc.
  { split; [reflexivity|]. repeat constructor. }
  split; [vm_compute; lia|]. split; [exact Hc|].
  apply (sobel_constant_zero 5 (mkarr [2; 1; 2] [5; 5; 5; 5]%R));
    [vm_compute; lia|exact Hc].
Defined.

Lemma get_within lo hi image idx :
  within lo hi image → in_bounds (shape image) idx →
  (lo <= get 0%R image idx <= hi)%R.
Proof.
  intros [Hwf Hc] Hb. unfold get.
  apply ravel_lt in Hb. rewrite <- Hwf in Hb.
  rewrite Forall_forall in Hc. apply Hc, list_elem_of_In, nth_In, Hb.
Qed.

Lemma Rsum_abs_le {A} (f g : A → R) l :
  (∀ x, In x l → (Rabs (f x) <= g x)%R) →
  (Rabs (Rsum (map f l)) <= Rsum (map g l))%R.
Proof.
  unfold Rsum. induction l as [|x l IH]; intros H; cbn [map foldr].
  - rewrite Rabs_R0. lra.
  - eapply Rle_trans; [apply Rabs_triang|].
    apply Rplus_le_compat; [apply H; by left|].
    apply IH. intros y Hy. apply H. by right.
Qed.

Lemma Rsum_le_const {A} (f : A → R) (c : R) l :
  (∀ x, In x l → (f x <= c)%R) →
  (Rsum (map f l) <= INR (length l) * c)%R.
Proof.
  unfold Rsum. induction l as [|x l IH]; intros H.
  - cbn. lra.
  - cbn [map foldr length]. rewrite S_INR.
    assert (f x <= c)%R by (apply H; by left).
    assert (foldr Rplus 0 (map f l) <= INR (length l) * c)%R
      by (apply IH; intros y Hy; apply H; by right).
    lra.
Qed.

Lemma ref_convolve_bound lo hi image d idx :
  within lo hi image → d < ndim image → in_bounds (shape image) idx →
  (Rabs (ref_convolve image d idx) <= 4 ^ (ndim image - 1) * (hi - lo))%R.
Proof.
  intros Hw Hd Hb.
  set (m := ((lo + hi) / 2)%R). set (h := ((hi - lo) / 2)%R).
  set (n := ndim image) in *.
  assert (ref_convolve image d idx
          = Rsum (map (fun k => (IZR (kernel_weight n d k)
                    * (get 0 image (mirror (shape image) idx k) - m))%R)
                 (indices (replicate n 3)))) as ->.
  { unfold ref_convolve. fold n.
    transitivity (Rsum (map (fun k =>
        (IZR (kernel_weight n d k)
         * (get 0 image (mirror (shape image) idx k) - m)
         + m * IZR (kernel_weight n d k))%R) (indices (replicate n 3)))).
    - apply Rsum_map_ext. intros k _. lra.
    - rewrite Rsum_plus, Rsum_scale, Rsum_kernel_weight by done. lra. }
  eapply Rle_trans.
  - apply (Rsum_abs_le _ (fun k => (h * IZR (Z.abs (kernel_weight n d k)))%R)).
    intros k Hk. apply In_indices in Hk.
    rewrite Rabs_mult, <- abs_IZR, Rmult_comm.
    apply Rmult_le_compat_r; [apply IZR_le, Z.abs_nonneg|].
    pose proof (get_within lo hi image (mirror (shape image) idx k) Hw) as Hg.
    specialize (Hg ltac:(by apply mirror_in_bounds)).
    apply Rabs_le. unfold m, h. lra.
  - rewrite Rsum_scale.
    rewrite <- (map_map (fun k => Z.abs (kernel_weight n d k)) IZR).
    rewrite <- IZR_Zsum, kernel_weight_abs_sum by done.
    rewrite <- INR_IZR_INZ, mult_INR, pow_INR.
    change (INR 2) with 2%R. replace (INR 4) with 4%R by (simpl; lra).
    unfold h. lra.
Qed.

(** X13: in exact real arithmetic, when every sample of an image with
    [ndim >= 1] axes lies between [lo] and [hi], every sample [sobel]
    returns is a real number between 0 and [4 ^ (ndim - 1) * (hi - lo)]. *)
Theorem sobel_bounded (lo hi : R) (image : ndarray R) :
  1 ≤ ndim image → within lo hi image →
  ∃ out, sobel image = Ok out
         ∧ Forall (fun x => ∃ r, x = Fin r
                     ∧ (0 <= r <= 4 ^ (ndim image - 1) * (hi - lo))%R)
                  (data out).
Proof.
  intros Hn Hw. exists (ref_sobel image). split; [by apply sobel_ref|].
  unfold ref_sobel, tabulate; cbn [data]. apply Forall_forall. intros x Hx.
  apply list_elem_of_In, in_map_iff in Hx as (idx & <- & Hidx).
  apply In_indices in Hidx. eexists. split; [reflexivity|].
  pose proof (sqrt_ndim_pos _ Hn) as Hs.
  set (B := (4 ^ (ndim image - 1) * (hi - lo))%R).
  set (S := Rsum (map (fun d => (ref_convolve image d idx ^ 2)%R)
                      (seq 0 (ndim image)))).
  assert (0 <= S)%R as HS by apply Rsum_squares_nonneg.
  assert (0 <= B)%R as HB.
  { eapply Rle_trans; [apply Rabs_pos|].
    by apply (ref_convolve_bound lo hi image 0 idx). }
  split; [apply Rle_mult_inv_pos; [apply sqrt_pos|done]|].
  assert (S <= INR (ndim image) * B ^ 2)%R as HSB.
  { pose proof (Rsum_le_const
                  (fun d => (ref_convolve image d idx ^ 2)%R) (B ^ 2)%R
                  (seq 0 (ndim image))) as Hle.
    rewrite length_seq in Hle. apply Hle. intros d Hd. apply in_seq in Hd.
    rewrite <- !Rsqr_pow2. apply Rsqr_le_abs_1.
    rewrite (Rabs_right B) by lra.
    apply (ref_convolve_bound lo hi image d idx); (done || lia). }
  apply (Rmult_le_reg_r (sqrt (INR (ndim image)))); [done|].
  unfold Rdiv. rewrite Rmult_assoc, Rinv_l, Rmult_1_r by lra.
  eapply Rle_trans; [apply sqrt_le_1_alt, HSB|].
  rewrite sqrt_mult by (apply pos_INR || apply pow2_ge_0).
  rewrite <- Rsqr_pow2, sqrt_Rsqr by done. lra.
Qed.

Lemma sobel_bounded_witness :
  1 ≤ ndim (mkarr [2; 2] [0; 1; 0; 1]%R)
  ∧ within 0 1 (mkarr [2; 2] [0; 1; 0; 1]%R)
  ∧ ∃ out, sobel (mkarr [2; 2] [0; 1; 0; 1]%R) = Ok out
           ∧ Forall (fun x => ∃ r, x = Fin r
                       ∧ (0 <= r <= 4 ^ (2 - 1) * (1 - 0))%R)
                    (data out).
Proof.
  assert (within 0 1 (mkarr [2; 2] [0; 1; 0; 1]%R)) as Hw.
  { split; [reflexivity|]. repeat constructor; lra. }
  split; [vm_compute; lia|]. split; [exact Hw|].
  apply (sobel_bounded 0 1 (mkarr [2; 2] [0; 1; 0; 1]%R));
    [vm_compute; lia|exact Hw].
Defined.

Lemma mirror_coord_succ n i :
  i < n → mirror_coord n (Z.of_nat i + 1) = Nat.min (i + 1) (n - 1).
Proof.
  intros Hi. unfold mirror_coord.
  destruct (Z.ltb_spec (Z.of_nat i + 1) 0); [lia|].
  destruct (Z.ltb_spec (Z.of_nat i + 1) (Z.of_nat n)); lia.
Qed.

Lemma mirror_coord_pred n i :
  i < n → mirror_coord n (Z.of_nat i - 1) = i - 1.
Proof.
  intros Hi. unfold mirror_coord.
  destruct (Z.ltb_spec (Z.of_nat i - 1) 0); [lia|].
  destruct (Z.ltb_spec (Z.of_nat i - 1) (Z.of_nat n)); lia.
Qed.

Lemma indices_1d n : indices [n] = map (fun i => [i]) (seq 0 n).
Proof.
  cbn [indices]. generalize (seq 0 n) as l.
  induction l as [|i l IH]; [done|]. cbn [flat_map map app]. by f_equal.
Qed.

Lemma get_1d (l : list R) n j : get 0%R (mkarr [n] l) [j] = nth j l 0%R.
Proof. unfold get. cbn. f_equal. lia. Qed.

(** X14: in exact real arithmetic, on a line of samples [l], [sobel]
    returns at position [i] the absolute difference of the two neighbours,
    [|l[i+1] - l[i-1]|], where at either end the missing neighbour is the
    end sample itself. *)
Theorem sobel_line_formula (l : list R) :
  sobel (mkarr [length l] l)
  = Ok (mkarr [length l]
          (map (fun i =>
                  Fin (Rabs (nth (Nat.min (i + 1) (length l - 1)) l 0%R
                             - nth (i - 1) l 0%R)))
               (seq 0 (length l)))).
Proof.
  rewrite sobel_ref by (cbv; lia). f_equal.
  unfold ref_sobel, tabulate. cbn [shape ndim length]. f_equal.
  rewrite indices_1d, map_map. apply map_ext_in. intros i Hi.
  apply in_seq in Hi. f_equal.
  cbn [seq map Rsum foldr].
  rewrite ref_convolve_1d, INR_1, sqrt_1, Rplus_0_r.
  rewrite <- Rsqr_pow2, sqrt_Rsqr_abs, !get_1d.
  rewrite mirror_coord_succ, mirror_coord_pred by lia.
  unfold Rdiv. rewrite Rinv_1, Rmult_1_r. f_equal. lra.
Qed.

Lemma nth_mirror s idx k a :
  in_bounds s idx → in_bounds (replicate (length s) 3) k → a < length s →
  nth a (mirror s idx k) 0
  = mirror_coord (nth a s 0)
      (Z.of_nat (nth a idx 0) + 1 - Z.of_nat (nth a k 0)).
Proof.
  intros Hb. revert k a.
  induction Hb as [|n i s idx Hi _ IH]; intros k a Hk Ha; cbn in Ha; [lia|].
  cbn [length replicate] in Hk.
  apply in_bounds_cons in Hk as (j & k' & -> & Hj & Hk).
  destruct a as [|a]; [done|]. cbn [mirror nth]. apply IH; [done|lia].
Qed.

Lemma mirror_flip_off_axis s d idx k a :
  in_bounds s idx → in_bounds (replicate (length s) 3) k →
  d < length s → a ≠ d →
  nth a (mirror s idx (flip_index (replicate (length s) 3) d k)) 0
  = nth a (mirror s idx k) 0.
Proof.
  intros Hb Hk Hd Ha.
  pose proof (flip_index_in_bounds _ d _ Hk) as Hk'.
  pose proof (in_bounds_length _ _ Hk) as Hlen.
  rewrite length_replicate in Hlen.
  destruct (decide (a < length s)) as [Hlt|Hge].
  - rewrite !nth_mirror by done. do 3 f_equal.
    rewrite nth_flip_index by (by rewrite length_replicate).
    destruct (Nat.eqb_spec a d); [done|done].
  - rewrite !nth_overflow; [done| |].
    + rewrite (in_bounds_length s) by (by apply mirror_in_bounds). lia.
    + rewrite (in_bounds_length s) by (by apply mirror_in_bounds). lia.
Qed.

Lemma ref_convolve_invariant_axis image d idx :
  d < ndim image → invariant_along d image →
  in_bounds (shape image) idx → ref_convolve image d idx = 0%R.
Proof.
  intros Hd Hinv Hb.
  assert (ref_convolve image d idx = (-1 * ref_convolve image d idx)%R) as E;
    [|lra].
  unfold ref_convolve at 1.
  rewrite <- (Rsum_flip_indices _ _ d). unfold ref_convolve.
  rewrite <- Rsum_scale.
  apply Rsum_map_ext. intros k Hk. apply In_indices in Hk.
  rewrite kernel_weight_flip by done.
  unfold ndim in *.
  rewrite (Hinv (mirror (shape image) idx
                   (flip_index (replicate (length (shape image)) 3) d k))
                (mirror (shape image) idx k)).
  - rewrite mult_IZR. unfold flip_sign. rewrite Nat.eqb_refl. lra.
  - apply mirror_in_bounds; [done|]. by apply flip_index_in_bounds.
  - by apply mirror_in_bounds.
  - intros a Ha. by apply mirror_flip_off_axis.
Qed.

(** X15: in exact real arithmetic, when the samples of the image do not
    change along axis [d], the convolution pass whose difference kernel
    lies along [d] is the all-zero array. *)
Theorem sobel_invariant_axis_zero_pass (image : ndarray R) (d : nat) :
  d < ndim image → invariant_along d image →
  ∃ kernel, sobel_kernel (ndim image) d = Ok kernel
            ∧ convolve image kernel = Ok (np_zeros (shape image)).
Proof.
  intros Hd Hinv. eexists. split; [by apply sobel_kernel_ok|].
  rewrite convolve_ok, np_zeros_tabulate. f_equal.
  apply tabulate_ext. intros idx Hb. by apply ref_convolve_invariant_axis.
Qed.

Lemma sobel_invariant_axis_zero_pass_witness :
  0 < ndim (mkarr [2; 2] [1; 5; 1; 5]%R)
  ∧ invariant_along 0 (mkarr [2; 2] [1; 5; 1; 5]%R)
  ∧ ∃ kernel, sobel_kernel 2 0 = Ok kernel
              ∧ convolve (mkarr [2; 2] [1; 5; 1; 5]%R) kernel
                = Ok (np_zeros [2; 2]).
Proof.
  assert (invariant_along 0 (mkarr [2; 2] [1; 5; 1; 5]%R)) as Hinv.
  { intros idx idx' Hb Hb' Heq. cbn [shape] in Hb, Hb'.
    apply in_bounds_cons in Hb as (i & ? & -> & Hi & Hb).
    apply in_bounds_cons in Hb as (j & ? & -> & Hj & ->%in_bounds_nil_l).
    apply in_bounds_cons in Hb' as (i' & ? & -> & Hi' & Hb').
    apply in_bounds_cons in Hb' as (j' & ? & -> & Hj' & ->%in_bounds_nil_l).
    specialize (Heq 1 ltac:(lia)). cbn in Heq. subst j'.
    destruct i as [|[|i]], i' as [|[|i']], j as [|[|j]]; try lia; reflexivity. }
  split; [vm_compute; lia|]. split; [exact Hinv|].
  apply (sobel_invariant_axis_zero_pass (mkarr [2; 2] [1; 5; 1; 5]%R) 0);
    [vm_compute; lia|exact Hinv].
Defined.

Lemma mirror_coord_adjacent n i j :
  i < n → j < 3 →
  mirror_coord n (Z.of_nat i + 1 - Z.of_nat j) ≤ i + 1
  ∧ i ≤ mirror_coord n (Z.of_nat i + 1 - Z.of_nat j) + 1.
Proof.
  intros Hi Hj. unfold mirror_coord. repeat case_match;
    rewrite ?Z.ltb_lt, ?Z.ltb_ge in *; lia.
Qed.

Lemma mirror_adjacent s idx k :
  in_bounds s idx → in_bounds (replicate (length s) 3) k →
  adjacent idx (mirror s idx k).
Proof.
  intros Hb Hk a.
  destruct (decide (a < length s)) as [Hlt|Hge].
  - rewrite nth_mirror by done. apply mirror_coord_adjacent.
    + apply in_bounds_nth in Hb as [_ Hb]. by apply Hb.
    + by apply (in_bounds_replicate_nth (length s)).
  - rewrite !nth_overflow; [lia| |].
    + rewrite (in_bounds_length s) by done. lia.
    + rewrite (in_bounds_length s) by (by apply mirror_in_bounds). lia.
Qed.

(** X16: [sobel] is local: the sample it returns at [idx] depends only on
    the samples of the image at [idx] and its neighbours.  Two images of
    one shape that agree there give the same sample at [idx]. *)
Theorem sobel_local (image1 image2 : ndarray R) (idx : list nat) :
  1 ≤ ndim image1 → shape image1 = shape image2 →
  in_bounds (shape image1) idx →
  (∀ idx', in_bounds (shape image1) idx' → adjacent idx idx' →
           get 0%R image1 idx' = get 0%R image2 idx') →
  ∃ out1 out2, sobel image1 = Ok out1 ∧ sobel image2 = Ok out2
               ∧ get NaN out1 idx = get NaN out2 idx.
Proof.
  intros Hn Hs Hb Hagree.
  assert (ndim image2 = ndim image1) as Hnd by (unfold ndim; by rewrite Hs).
  exists (ref_sobel image1), (ref_sobel image2).
  split; [by apply sobel_ref|]. split; [apply sobel_ref; lia|].
  unfold ref_sobel. rewrite !get_tabulate by (by rewrite <- ?Hs).
  rewrite Hnd. do 3 f_equal. apply Rsum_map_ext. intros d _. f_equal.
  unfold ref_convolve. rewrite Hnd, <- Hs.
  apply Rsum_map_ext. intros k Hk. apply In_indices in Hk. f_equal.
  apply Hagree.
  - by apply mirror_in_bounds.
  - by apply mirror_adjacent.
Qed.

Lemma sobel_local_witness :
  1 ≤ ndim (mkarr [4] [1; 2; 4; 8]%R)
  ∧ shape (mkarr [4] [1; 2; 4; 8]%R) = shape (mkarr [4] [1; 2; 4; 9]%R)
  ∧ in_bounds (shape (mkarr [4] [1; 2; 4; 8]%R)) [1]
  ∧ (∀ idx', in_bounds (shape (mkarr [4] [1; 2; 4; 8]%R)) idx' →
             adjacent [1] idx' →
             get 0%R (mkarr [4] [1; 2; 4; 8]%R) idx'
             = get 0%R (mkarr [4] [1; 2; 4; 9]%R) idx')
  ∧ ∃ out1 out2, sobel (mkarr [4] [1; 2; 4; 8]%R) = Ok out1
                 ∧ sobel (mkarr [4] [1; 2; 4; 9]%R) = Ok out2
                 ∧ get NaN out1 [1] = get NaN out2 [1].
Proof.
  assert (in_bounds (shape (mkarr [4] [1; 2; 4; 8]%R)) [1]) as Hb.
  { repeat constructor. }
  assert (∀ idx', in_bounds (shape (mkarr [4] [1; 2; 4; 8]%R)) idx' →
             adjacent [1] idx' →
             get 0%R (mkarr [4] [1; 2; 4; 8]%R) idx'
             = get 0%R (mkarr [4] [1; 2; 4; 9]%R) idx') as Hagree.
  { intros idx' Hb' Hadj. cbn [shape] in Hb'.
    apply in_bounds_cons in Hb' as (i & ? & -> & Hi & ->%in_bounds_nil_l).
    destruct (Hadj 0) as [H1 H2]. cbn in H1, H2.
    destruct i as [|[|[|i]]]; try lia; reflexivity. }
  split; [vm_compute; lia|]. split; [reflexivity|]. split; [exact Hb|].
  split; [exact Hagree|].
  apply (sobel_local (mkarr [4] [1; 2; 4; 8]%R) (mkarr [4] [1; 2; 4; 9]%R) [1]);
    [vm_compute; lia|reflexivity|exact Hb|exact Hagree].
Defined.

Lemma Rsum_quadratic {A} (p q : R) (u v : A → R) l :
  Rsum (map (fun x => ((p * u x - q * v x) ^ 2)%R) l)
  = (p ^ 2 * Rsum (map (fun x => (u x ^ 2)%R) l)
     - 2 * p * q * Rsum (map (fun x => (u x * v x)%R) l)
     + q ^ 2 * Rsum (map (fun x => (v x ^ 2)%R) l))%R.
Proof.
  unfold Rsum. induction l as [|x l IH]; cbn [map foldr]; [|rewrite IH]; ring.
Qed.

(** Cauchy-Schwarz for finite sums. *)
Lemma Rsum_cauchy_schwarz {A} (u v : A → R) l :
  (Rsum (map (fun x => (u x * v x)%R) l) ^ 2
   <= Rsum (map (fun x => (u x ^ 2)%R) l)
      * Rsum (map (fun x => (v x ^ 2)%R) l))%R.
Proof.
  set (a := Rsum (map (fun x => (u x ^ 2)%R) l)).
  set (b := Rsum (map (fun x => (v x ^ 2)%R) l)).
  set (c := Rsum (map (fun x => (u x * v x)%R) l)).
  assert (∀ p q, 0 <= p ^ 2 * a - 2 * p * q * c + q ^ 2 * b)%R as Hq.
  { intros p q. unfold a, b, c. rewrite <- Rsum_quadratic.
    apply Rsum_squares_nonneg. }
  assert (0 <= a)%R as Ha by apply Rsum_squares_nonneg.
  assert (0 <= b)%R as Hb by apply Rsum_squares_nonneg.
  pose proof (Hq b c) as H1. pose proof (Hq c a) as H2.
  pose proof (Hq 1%R c) as H3.
  destruct (Rle_lt_or_eq_dec _ _ Hb) as [Hb'|Hb'].
  - assert (0 <= b * (a * b - c ^ 2))%R as H by lra.
    apply Rnot_lt_le. intros Hlt.
    assert (b * (a * b - c ^ 2) < 0)%R; [|lra].
    rewrite <- (Rmult_0_r b). apply Rmult_lt_compat_l; lra.
  - destruct (Rle_lt_or_eq_dec _ _ Ha) as [Ha'|Ha'].
    + assert (0 <= a * (a * b - c ^ 2))%R as H by lra.
      apply Rnot_lt_le. intros Hlt.
      assert (a * (a * b - c ^ 2) < 0)%R; [|lra].
      rewrite <- (Rmult_0_r a). apply Rmult_lt_compat_l; lra.
    + rewrite <- Ha', <- Hb' in *. lra.
Qed.

Lemma Rsum_square_of_sum {A} (u v : A → R) l :
  Rsum (map (fun x => ((u x + v x) ^ 2)%R) l)
  = (Rsum (map (fun x => (u x ^ 2)%R) l)
     + 2 * Rsum (map (fun x => (u x * v x)%R) l)
     + Rsum (map (fun x => (v x ^ 2)%R) l))%R.
Proof.
  unfold Rsum. induction l as [|x l IH]; cbn [map foldr]; [|rewrite IH]; ring.
Qed.

(** Minkowski for finite sums. *)
Lemma Rsum_minkowski {A} (u v : A → R) l :
  (sqrt (Rsum (map (fun x => ((u x + v x) ^ 2)%R) l))
   <= sqrt (Rsum (map (fun x => (u x ^ 2)%R) l))
      + sqrt (Rsum (map (fun x => (v x ^ 2)%R) l)))%R.
Proof.
  set (a := Rsum (map (fun x => (u x ^ 2)%R) l)).
  set (b := Rsum (map (fun x => (v x ^ 2)%R) l)).
  set (c := Rsum (map (fun x => (u x * v x)%R) l)).
  assert (0 <= a)%R as Ha by apply Rsum_squares_nonneg.
  assert (0 <= b)%R as Hb by apply Rsum_squares_nonneg.
  rewrite Rsum_square_of_sum. fold a b c.
  assert (c <= sqrt a * sqrt b)%R as Hc.
  { rewrite <- sqrt_mult by done.
    eapply Rle_trans; [apply Rle_abs|].
    rewrite <- sqrt_Rsqr_abs. apply sqrt_le_1_alt.
    rewrite Rsqr_pow2. apply Rsum_cauchy_schwarz. }
  pose proof (sqrt_pos a) as Hsa. pose proof (sqrt_pos b) as Hsb.
  rewrite <- (sqrt_Rsqr (sqrt a + sqrt b)) by lra.
  apply sqrt_le_1_alt. unfold Rsqr.
  pose proof (sqrt_sqrt a Ha). pose proof (sqrt_sqrt b Hb). nra.
Qed.

Lemma np_add_same_shape a b :
  shape a = shape b →
  np_add a b
  = Ok (tabulate (shape a) (fun idx => (get 0 a idx + get 0 b idx)%R)).
Proof.
  intros Hs. unfold np_add, broadcast_op. rewrite <- Hs.
  rewrite broadcast_shapes_ok, zip_with_bdim_same
    by (apply Forall_Forall2_diag, Forall_forall; auto).
  cbn [mbind result_bind]. f_equal. apply tabulate_ext. intros idx Hb.
  by rewrite broadcast_index_id.
Qed.

Lemma ref_convolve_add a b d idx :
  shape a = shape b → in_bounds (shape a) idx →
  ref_convolve
    (tabulate (shape a) (fun idx => (get 0 a idx + get 0 b idx)%R)) d idx
  = (ref_convolve a d idx + ref_convolve b d idx)%R.
Proof.
  intros Hs Hb. unfold ref_convolve, ndim. cbn [tabulate shape].
  rewrite <- Hs, <- Rsum_plus.
  apply Rsum_map_ext. intros k Hk. apply In_indices in Hk.
  rewrite get_tabulate by (by apply mirror_in_bounds). lra.
Qed.

(** X17: in exact real arithmetic [sobel] is subadditive: for two images
    of one shape, the sample it returns for their sum is at most the sum of
    the samples it returns for each. *)
Theorem sobel_subadditive (a b : ndarray R) (idx : list nat) :
  1 ≤ ndim a → shape a = shape b → in_bounds (shape a) idx →
  ∃ c oa ob oc ra rb rc,
    np_add a b = Ok c
    ∧ sobel a = Ok oa ∧ sobel b = Ok ob ∧ sobel c = Ok oc
    ∧ get NaN oa idx = Fin ra ∧ get NaN ob idx = Fin rb
    ∧ get NaN oc idx = Fin rc
    ∧ (rc <= ra + rb)%R.
Proof.
  intros Hn Hs Hb.
  assert (ndim b = ndim a) as Hnb by (unfold ndim; by rewrite Hs).
  set (c := tabulate (shape a) (fun idx => (get 0 a idx + get 0 b idx)%R)).
  set (mag := fun x : ndarray R =>
    (sqrt (Rsum (map (fun d => (ref_convolve x d idx ^ 2)%R)
                     (seq 0 (ndim x)))) / sqrt (INR (ndim x)))%R).
  exists c, (ref_sobel a), (ref_sobel b), (ref_sobel c).
  exists (mag a), (mag b), (mag c).
  split; [by apply np_add_same_shape|].
  split; [by apply sobel_ref|]. split; [apply sobel_ref; lia|].
  split; [by apply sobel_ref|].
  unfold ref_sobel.
  split; [by rewrite get_tabulate|].
  split; [by rewrite get_tabulate by (by rewrite <- Hs)|].
  split; [by rewrite get_tabulate|].
  unfold mag. change (ndim c) with (ndim a). rewrite Hnb.
  pose proof (sqrt_ndim_pos _ Hn) as Hpos.
  unfold Rdiv. rewrite <- Rmult_plus_distr_r.
  apply Rmult_le_compat_r; [left; by apply Rinv_0_lt_compat|].
  erewrite (Rsum_map_ext (fun d => (ref_convolve c d idx ^ 2)%R)).
  - apply (Rsum_minkowski (fun d => ref_convolve a d idx)
                          (fun d => ref_convolve b d idx)).
  - intros d _. cbn beta. unfold c. by rewrite ref_convolve_add.
Qed.

Lemma sobel_subadditive_witness :
  1 ≤ ndim (mkarr [3] [1; 2; 4]%R)
  ∧ shape (mkarr [3] [1; 2; 4]%R) = shape (mkarr [3] [5; 0; 1]%R)
  ∧ in_bounds (shape (mkarr [3] [1; 2; 4]%R)) [1]
  ∧ ∃ c oa ob oc ra rb rc,
      np_add (mkarr [3] [1; 2; 4]%R) (mkarr [3] [5; 0; 1]%R) = Ok c
      ∧ sobel (mkarr [3] [1; 2; 4]%R) = Ok oa
      ∧ sobel (mkarr [3] [5; 0; 1]%R) = Ok ob
      ∧ sobel c = Ok oc
      ∧ get NaN oa [1] = Fin ra ∧ get NaN ob [1] = Fin rb
      ∧ get NaN oc [1] = Fin rc
      ∧ (rc <= ra + rb)%R.
Proof.
  assert (in_bounds (shape (mkarr [3] [1; 2; 4]%R)) [1]) as Hb.
  { repeat constructor. }
  split; [vm_compute; lia|]. split; [reflexivity|]. split; [exact Hb|].
  apply (sobel_subadditive (mkarr [3] [1; 2; 4]%R) (mkarr [3] [5; 0; 1]%R) [1]);
    [vm_compute; lia|reflexivity|exact Hb].
Defined.

(** ** [sobel] over the object store *)

(** X18: two calls of [sobel] on the same array object, one after the
    other, return two different newly allocated objects that hold the same
    array, and the first result is still intact after the second call. *)
Theorem sobel_st_repeatable (h : heap) (image : nat) (img : ndarray R) :
  h !! image = Some (RealArr img) →
  ∃ out1 h1 out2 h2 res,
    sobel_st image h = Ok (out1, h1)
    ∧ sobel_st image h1 = Ok (out2, h2)
    ∧ out1 ≠ out2
    ∧ h2 !! out1 = Some (FloatArr res)
    ∧ h2 !! out2 = Some (FloatArr res)
    ∧ h2 !! image = Some (RealArr img).
Proof.
  intros Hi. destruct (sobel_total img) as [res Hres].
  destruct (sobel_st_sim h image img res Hi Hres)
    as (out1 & h1 & Hrun1 & Hkeep1 & Hfresh1 & Hout1).
  destruct (sobel_st_sim h1 image img res (Hkeep1 _ _ Hi) Hres)
    as (out2 & h2 & Hrun2 & Hkeep2 & Hfresh2 & Hout2).
  exists out1, h1, out2, h2, res. repeat split; try done.
  - intros ->. by rewrite Hout1 in Hfresh2.
  - by apply Hkeep2.
  - by apply Hkeep2, Hkeep1.
Qed.

Lemma sobel_st_repeatable_witness :
  [RealArr (mkarr [2] [1; 4]%R)] !! 0 = Some (RealArr (mkarr [2] [1; 4]%R))
  ∧ ∃ out1 h1 out2 h2 res,
      sobel_st 0 [RealArr (mkarr [2] [1; 4]%R)] = Ok (out1, h1)
      ∧ sobel_st 0 h1 = Ok (out2, h2)
      ∧ out1 ≠ out2
      ∧ h2 !! out1 = Some (FloatArr res)
      ∧ h2 !! out2 = Some (FloatArr res)
      ∧ h2 !! 0 = Some (RealArr (mkarr [2] [1; 4]%R)).
Proof.
  split; [reflexivity|].
  apply (sobel_st_repeatable [RealArr (mkarr [2] [1; 4]%R)] 0
           (mkarr [2] [1; 4]%R)).
  reflexivity.
Defined.

(** ** The loop that sorts the region properties *)

Lemma sort_properties_caught {prop other} (getitem : prop → access other)
    props supported unsupported :
  Forall (fun p => is_caught (getitem p) = true) props →
  sort_properties getitem props supported unsupported
  = inr (supported ++ List.filter (fun p => is_measured (getitem p)) props,
         unsupported
           ++ List.filter (fun p => is_not_implemented (getitem p)) props).
Proof.
  intros H. revert supported unsupported.
  induction H as [|p props Hp _ IH]; intros supported unsupported.
  - cbn. by rewrite !app_nil_r.
  - cbn [sort_properties List.filter].
    destruct (getitem p); cbn [is_measured is_not_implemented] in *.
    + rewrite IH. by rewrite <- app_assoc.
    + rewrite IH. by rewrite <- app_assoc.
    + done.
Qed.

Lemma Permutation_sorted {prop other} (getitem : prop → access other) props :
  Forall (fun p => is_caught (getitem p) = true) props →
  Permutation
    (List.filter (fun p => is_measured (getitem p)) props
       ++ List.filter (fun p => is_not_implemented (getitem p)) props)
    props.
Proof.
  induction 1 as [|p props Hp _ IH]; [done|].
  cbn [List.filter].
  destruct (getitem p); cbn [is_measured is_not_implemented is_caught] in *.
  - cbn. by constructor.
  - symmetry. apply Permutation_cons_app. by symmetry.
  - done.
Qed.

(** X19: when no access raises anything but [NotImplementedError], the
    loop ends with every property in exactly one of the two lists:
    [supported] holds, in iteration order, the properties whose access
    returned, [unsupported] those whose access raised
    [NotImplementedError], and together they are a rearrangement of the
    properties iterated. *)
Theorem supported_properties_partition {prop other : Type}
    (props : list prop) (getitem : prop → access other)
    (rest : list (region prop other)) :
  Forall (fun p => is_caught (getitem p) = true) props →
  ∃ supported unsupported,
    supported_properties ((props, getitem) :: rest)
    = inr (supported, unsupported)
    ∧ supported = List.filter (fun p => is_measured (getitem p)) props
    ∧ unsupported
      = List.filter (fun p => is_not_implemented (getitem p)) props
    ∧ Permutation (supported ++ unsupported) props.
Proof.
  intros H. eexists _, _. split; [|split; [done|split; [done|]]].
  - cbn [supported_properties]. by rewrite sort_properties_caught.
  - by apply Permutation_sorted.
Qed.

Lemma supported_properties_partition_witness :
  Forall (fun p => is_caught
            ((fun p : nat => if p =? 1 then @NotImplemented unit else Measured)
               p) = true) [0; 1; 2]
  ∧ ∃ supported unsupported,
      supported_properties
        [([0; 1; 2],
          fun p : nat => if p =? 1 then @NotImplemented unit else Measured)]
      = inr (supported, unsupported)
      ∧ supported
        = List.filter (fun p => is_measured
            ((fun p : nat => if p =? 1 then @NotImplemented unit
                             else Measured) p)) [0; 1; 2]
      ∧ unsupported
        = List.filter (fun p => is_not_implemented
            ((fun p : nat => if p =? 1 then @NotImplemented unit
                             else Measured) p)) [0; 1; 2]
      ∧ Permutation (supported ++ unsupported) [0; 1; 2].
Proof.
  assert (Forall (fun p => is_caught
            ((fun p : nat => if p =? 1 then @NotImplemented unit else Measured)
               p) = true) [0; 1; 2]) as H by (repeat constructor).
  split; [exact H|].
  apply (supported_properties_partition [0; 1; 2]
           (fun p : nat => if p =? 1 then @NotImplemented unit else Measured)
           []).
  exact H.
Defined.

(** X20: an exception other than [NotImplementedError] is not caught: the
    loop stops at the first property whose access raises one, and the cell
    raises that exception. *)
Theorem supported_properties_uncaught {prop other : Type}
    (before after : list prop) (p : prop) (e : other)
    (getitem : prop → access other) (rest : list (region prop other)) :
  Forall (fun q => is_caught (getitem q) = true) before →
  getitem p = OtherError e →
  supported_properties ((before ++ p :: after, getitem) :: rest)
  = inl (Uncaught e).
Proof.
  intros Hb Hp. cbn [supported_properties].
  generalize (@nil prop) at 1 as supported.
  generalize (@nil prop) as unsupported.
  induction Hb as [|q before Hq _ IH]; intros unsupported supported.
  - cbn. by rewrite Hp.
  - cbn [app sort_properties].
    destruct (getitem q); cbn [is_caught] in Hq; [apply IH|apply IH|done].
Qed.

Lemma supported_properties_uncaught_witness :
  Forall (fun q => is_caught
            ((fun q : nat => if q =? 1 then OtherError 7 else Measured) q)
          = true) [0]
  ∧ (fun q : nat => if q =? 1 then OtherError 7 else Measured) 1
    = OtherError 7
  ∧ supported_properties
      [([0] ++ 1 :: [2],
        fun q : nat => if q =? 1 then OtherError 7 else Measured)]
    = inl (Uncaught 7).
Proof.
  assert (Forall (fun q => is_caught
            ((fun q : nat => if q =? 1 then OtherError 7 else Measured) q)
          = true) [0]) as H by (repeat constructor).
  split; [exact H|]. split; [reflexivity|].
  apply (supported_properties_uncaught [0] [2] 1 7
           (fun q : nat => if q =? 1 then OtherError 7 else Measured) []);
    [exact H|reflexivity].
Defined.

Lemma sort_properties_region {prop other} (getitem : prop → access other)
    props supported unsupported :
  sort_properties getitem props supported unsupported ≠ inl NoRegion.
Proof.
  revert supported unsupported.
  induction props as [|p props IH]; intros supported unsupported; [done|].
  cbn [sort_properties]. destruct (getitem p); [apply IH|apply IH|done].
Qed.

(** X21: the cell raises the [IndexError] of [regionprops[0]] exactly when
    [regionprops] is empty. *)
Theorem supported_properties_no_region {prop other : Type}
    (regionprops : list (region prop other)) :
  supported_properties regionprops = inl NoRegion ↔ regionprops = [].
Proof.
  split; [|by intros ->].
  destruct regionprops as [|[props getitem] rest]; [done|].
  cbn [supported_properties]. intros H.
  by apply sort_properties_region in H.
Qed.

Lemma string_append_assoc (a b c : String.string) :
  String.append (String.append a b) c = String.append a (String.append b c).
Proof. induction a as [|ch a IH]; cbn; [done|]. by rewrite IH. Qed.

(** X22: the printed text has one line per name, each indented by two
    spaces; with no name at all it still is one line, of two spaces. *)
Theorem indented_lines_text (names : list String.string) :
  indented_lines names
  = match names with
    | [] => two_spaces
    | _ => String.concat newline (map (String.append two_spaces) names)
    end.
Proof.
  destruct names as [|x l]; [done|].
  unfold indented_lines. revert x. induction l as [|y l IH]; intros x.
  - reflexivity.
  - change (String.concat (String.append newline two_spaces) (x :: y :: l))
      with (String.append x (String.append (String.append newline two_spaces)
              (String.concat (String.append newline two_spaces) (y :: l)))).
    change (String.concat newline (map (String.append two_spaces) (x :: y :: l)))
      with (String.append (String.append two_spaces x)
              (String.append newline
                 (String.concat newline
                    (map (String.append two_spaces) (y :: l))))).
    rewrite <- IH. by rewrite !string_append_assoc.
Qed.

(** ** The grid of axes for an image collection *)

Lemma getitem_axes_seq len i : i < len → getitem_axes (seq 0 len) i = Ok i.
Proof. intros Hi. unfold getitem_axes. by rewrite lookup_seq_lt. Qed.

Lemma place_images_loop len m j drawn :
  j + m ≤ len →
  for_loop (seq j m)
    (fun drawn i => ax ← getitem_axes (seq 0 len) i; Ok (drawn ++ [ax]))
    drawn
  = Ok (drawn ++ seq j m).
Proof.
  revert j drawn. induction m as [|m IH]; intros j drawn Hj.
  - cbn. by rewrite app_nil_r.
  - cbn [seq for_loop]. rewrite getitem_axes_seq by lia. cbn [mbind result_bind].
    rewrite IH by lia. by rewrite <- app_assoc.
Qed.

(** X23: the grid always has room: with three rows and
    [len(ic) // 3 + 1] columns, [axes[i]] raises for no image, image [i]
    is drawn on the axes at position [i], and between one and three axes
    stay without an image. *)
Theorem place_images_fit (n_images : nat) :
  place_images n_images = Ok (seq 0 n_images)
  ∧ n_images + 1 ≤ length (grid_axes n_images) ≤ n_images + 3.
Proof.
  assert (n_images + 1 ≤ length (grid_axes n_images) ≤ n_images + 3) as H.
  { unfold grid_axes. rewrite length_seq.
    pose proof (Nat.div_mod_eq n_images 3).
    pose proof (Nat.mod_upper_bound n_images 3). lia. }
  split; [|done]. unfold place_images, range, grid_axes in *.
  rewrite length_seq in H. by rewrite place_images_loop by lia.
Qed.
